(** * Verification of [thread/jthread.cpp]

    The program starts three threads on one routine, [worker], joins them
    and returns 0.  The routine reads a clock, runs a bounded loop of
    sleeps (thread 1 also prints a notice and yields), reads the clock
    again and prints the elapsed milliseconds.

    The embedding is shallow.  A thread body is a term of a small free
    monad, [prog], whose constructors are the library calls the routine
    makes; the driver is a term of a second one, [drv], whose constructors
    are thread construction and [join].  A sequential interpreter, [run],
    gives the routine its meaning against a clock oracle; an executable
    scheduler step, [sched_step], gives the whole program its meaning under
    an arbitrary interleaving and arbitrary clock readings.

    Three things the routine and the driver rely on are modelled with
    them: the clock's counts are signed 64-bit integers, so the
    subtraction of two readings wraps ([chrono.minus]); [operator<<] on an
    integer reads the base the stream is in ([radix]); and the
    construction of a thread can be refused, which aborts the process
    ([refuse_step]).  A third interpreter, [timed_run], counts the time
    the calls and the sleeps take. *)

From Stdlib Require Import ZArith String Ascii List Lia DecimalString.
From Stdlib Require DecimalPos DecimalZ.
From Equations Require Import Equations.
From stdpp Require Import base tactics option list relations.

Local Open Scope string_scope.
Local Open Scope list_scope.
Local Open Scope Z_scope.

(** ** Text written to [std::cout] *)

(** The character written for ['\n']. *)
Definition LFchar : ascii := "010"%char.
Definition LF : string := String LFchar EmptyString.

(** [operator<<] on an [int] or a [long] with the stream's default flags:
    decimal digits, a leading minus sign for a negative value. *)
Definition show_int (n : Z) : string := NilZero.string_of_int (Z.to_int n).

(** The part of the stream's formatting state that [operator<<] on an
    integer reads: the base ([std::ios_base::basefield]).  A stream
    starts in decimal. *)
Inductive radix : Type := Dec | Oct | Hex.

Definition digit_char (d : N) : ascii :=
  nth (N.to_nat d) (list_ascii_of_string "0123456789abcdef") "0"%char.

Fixpoint show_digits (fuel : nat) (base n : N) (acc : string) : string :=
  match fuel with
  | O => acc
  | S fuel' =>
      let acc' := String (digit_char (n mod base)) acc in
      if N.eqb (n / base) 0 then acc'
      else show_digits fuel' base (n / base) acc'
  end.

Definition show_unsigned (base n : N) : string :=
  show_digits (S (N.size_nat n)) base n EmptyString.

(** What the stream writes for an integer of [bits] bits: in octal and
    hexadecimal the value is written as the unsigned number with the same
    bits. *)
Definition show_int_in (r : radix) (bits : Z) (n : Z) : string :=
  match r with
  | Dec => show_int n
  | Oct => show_unsigned 8 (Z.to_N (n mod 2 ^ bits))
  | Hex => show_unsigned 16 (Z.to_N (n mod 2 ^ bits))
  end.

(** Splitting a text into its lines.  [acc] is the line being read; a
    final line with no terminator is kept when it is not empty. *)
Fixpoint split_lines (acc s : string) : list string :=
  match s with
  | EmptyString => match acc with EmptyString => [] | _ => [acc] end
  | String c s' =>
      if Ascii.eqb c LFchar then acc :: split_lines EmptyString s'
      else split_lines (acc ++ String c EmptyString) s'
  end.

Definition lines (s : string) : list string := split_lines EmptyString s.

Fixpoint is_prefix (p s : list ascii) : bool :=
  match p, s with
  | [], _ => true
  | _ :: _, [] => false
  | c :: p', d :: s' => Ascii.eqb c d && is_prefix p' s'
  end.

Definition ends_with (suf s : string) : bool :=
  is_prefix (rev (list_ascii_of_string suf)) (rev (list_ascii_of_string s)).

Definition starts_with (pre s : string) : bool :=
  is_prefix (list_ascii_of_string pre) (list_ascii_of_string s).

(** The two kinds of line the program prints. *)
Definition is_yield_notice (l : string) : bool :=
  starts_with "Thread " l && ends_with " is yielding..." l.

Definition is_summary (l : string) : bool :=
  starts_with "Thread " l && ends_with " milliseconds" l.

(** A text with no line terminator in it. *)
Fixpoint no_lf (s : string) : bool :=
  match s with
  | EmptyString => true
  | String c s' => negb (Ascii.eqb c LFchar) && no_lf s'
  end.

(** The text of a list of lines, each terminated. *)
Definition unlines (ls : list string) : string :=
  foldr (fun l acc => (l ++ LF ++ acc)%string) EmptyString ls.

(** ** [std::chrono] *)

Module chrono.

(** A [time_point] of [high_resolution_clock] and a [duration] in its
    period are tick counts; the representation is a signed 64-bit
    integer.  The period is [std::nano], as in libstdc++ and libc++. *)
Definition time_point := Z.
Definition duration := Z.

Definition ticks_per_millisecond : Z := 1000000.

Definition in_rep (n : Z) : Prop := - 2 ^ 63 <= n < 2 ^ 63.

(** The value a signed 64-bit result has: the two's-complement wrap. *)
Definition wrap (n : Z) : Z := (n + 2 ^ 63) mod 2 ^ 64 - 2 ^ 63.

(** [ending - starting] on two time points: one subtraction of the two
    64-bit counts.  When the difference does not fit 64 bits the result
    is the wrapped one, as the machine subtraction gives it. *)
Definition minus (ending starting : time_point) : duration :=
  wrap (ending - starting).

(** [duration_cast<milliseconds>] of a nanosecond count: the conversion
    factor is 1/1000000, so the cast is one integer division, and C++
    integer division truncates toward zero. *)
Definition duration_cast_milliseconds (d : duration) : duration :=
  Z.quot d ticks_per_millisecond.

Definition count (d : duration) : Z := d.

End chrono.

(** ** Thread bodies *)

(** What a thread does that the rest of the program can observe. *)
Inductive event : Type :=
| EvNow (t : chrono.time_point)
| EvCout (s : string)
| EvYield
| EvSleepFor (ms : Z).

(** A thread body: a tree of library calls.  [ClockNow] is the one call
    that returns a value the body goes on with.  [Cout] writes a string
    literal, [CoutInt] an integer of the given number of bits, which the
    stream formats when it is written. *)
Inductive prog (A : Type) : Type :=
| Ret (a : A)
| ClockNow (k : chrono.time_point -> prog A)
| Cout (s : string) (k : prog A)
| CoutInt (bits : Z) (n : Z) (k : prog A)
| ThreadYield (k : prog A)
| SleepFor (ms : Z) (k : prog A).

Arguments Ret {A} a.
Arguments ClockNow {A} k.
Arguments Cout {A} s k.
Arguments CoutInt {A} bits n k.
Arguments ThreadYield {A} k.
Arguments SleepFor {A} ms k.

Fixpoint prog_bind {A B : Type} (f : A -> prog B) (m : prog A) : prog B :=
  match m with
  | Ret a => f a
  | ClockNow k => ClockNow (fun t => prog_bind f (k t))
  | Cout s k => Cout s (prog_bind f k)
  | CoutInt bits n k => CoutInt bits n (prog_bind f k)
  | ThreadYield k => ThreadYield (prog_bind f k)
  | SleepFor ms k => SleepFor ms (prog_bind f k)
  end.

#[export] Instance prog_mret : MRet prog := @Ret.
#[export] Instance prog_mbind : MBind prog := @prog_bind.

(** The calls, as the source spells them. *)
Definition high_resolution_clock_now : prog chrono.time_point :=
  ClockNow Ret.
Definition cout_str (s : string) : prog unit := Cout s (Ret tt).
Definition cout_int (n : Z) : prog unit := CoutInt 32 n (Ret tt).
Definition cout_long (n : Z) : prog unit := CoutInt 64 n (Ret tt).
Definition this_thread_yield : prog unit := ThreadYield (Ret tt).
Definition this_thread_sleep_for (ms : Z) : prog unit := SleepFor ms (Ret tt).

(** [for (int i = lo; i < n; ++i) body]: test, body, increment, again. *)
Equations for_lt (i n : Z) (body : Z -> prog unit) : prog unit
  by wf (Z.to_nat (n - i)) lt :=
for_lt i n body with Z_lt_dec i n := {
  | left _ => body i ≫= (fun _ => for_lt (i + 1) n body)
  | right _ => Ret tt }.
Next Obligation. lia. Qed.

(** [void worker(int id)]. *)
Definition worker (id : Z) : prog unit :=
  starting ← high_resolution_clock_now;
  for_lt 0 10 (fun _ =>
    (if Z.eqb id 1 then
       cout_str "Thread ";; cout_int id;; cout_str (" is yielding..." ++ LF);;
       this_thread_yield
     else Ret tt);;
    this_thread_sleep_for 100);;
  ending ← high_resolution_clock_now;
  let duration := chrono.duration_cast_milliseconds (chrono.minus ending starting) in
  cout_str "Thread ";; cout_int id;; cout_str " finished execution in ";;
  cout_long (chrono.count duration);; cout_str (" milliseconds" ++ LF).

(** ** Running one thread body on its own *)

(** The clock is an oracle: its [n]-th reading is [clock n].  [reads]
    counts the readings taken so far and [trace] holds every event so far,
    oldest first. *)
Record world : Type := World {
  clock : nat -> chrono.time_point;
  reads : nat;
  trace : list event
}.

Definition record_event (e : event) (w : world) : world :=
  World (clock w) (reads w) (trace w ++ [e]).

(** A run with the stream in base [r]. *)
Fixpoint run_in {A : Type} (r : radix) (p : prog A) (w : world) : A * world :=
  match p with
  | Ret a => (a, w)
  | ClockNow k =>
      let t := clock w (reads w) in
      run_in r (k t) (World (clock w) (S (reads w)) (trace w ++ [EvNow t]))
  | Cout s k => run_in r k (record_event (EvCout s) w)
  | CoutInt bits n k =>
      run_in r k (record_event (EvCout (show_int_in r bits n)) w)
  | ThreadYield k => run_in r k (record_event EvYield w)
  | SleepFor ms k => run_in r k (record_event (EvSleepFor ms) w)
  end.

(** A run with the stream as the program finds it: in decimal. *)
Definition run {A : Type} (p : prog A) (w : world) : A * world :=
  run_in Dec p w.

(** The text a trace puts on the stream, and the lines of that text. *)
Fixpoint output_of (tr : list event) : string :=
  match tr with
  | [] => EmptyString
  | EvCout s :: tr' => s ++ output_of tr'
  | _ :: tr' => output_of tr'
  end.

Definition clock_reads (tr : list event) : list chrono.time_point :=
  omap (fun e => match e with EvNow t => Some t | _ => None end) tr.

Definition sleeps (tr : list event) : list Z :=
  omap (fun e => match e with EvSleepFor ms => Some ms | _ => None end) tr.

(** The events [p] adds to the trace of [w]. *)
Definition emitted {A : Type} (p : prog A) (w : world) : list event :=
  drop (length (trace w)) (trace (run p w).2).

Definition is_yield (e : event) : bool :=
  match e with EvYield => true | _ => false end.

(** The count the worker prints, from its two readings. *)
Definition elapsed_ms (starting ending : Z) : Z :=
  chrono.count (chrono.duration_cast_milliseconds (chrono.minus ending starting)).

(** ** What the specification says a worker does

    These follow the specification's words, to be compared with what
    [run (worker id)] produces. *)

Definition spec_yield_events (id : Z) : list event :=
  [EvCout "Thread "; EvCout (show_int id); EvCout (" is yielding..." ++ LF);
   EvYield].

Definition spec_iteration (id : Z) : list event :=
  (if bool_decide (id = 1) then spec_yield_events id else []) ++
  [EvSleepFor 100].

Definition spec_summary_events (id n : Z) : list event :=
  [EvCout "Thread "; EvCout (show_int id); EvCout " finished execution in ";
   EvCout (show_int n); EvCout (" milliseconds" ++ LF)].

Definition spec_worker_trace (id : Z) (starting ending : Z) : list event :=
  EvNow starting :: concat (replicate 10 (spec_iteration id)) ++
  EvNow ending :: spec_summary_events id (elapsed_ms starting ending).

Definition yield_notice (id : Z) : string :=
  "Thread " ++ show_int id ++ " is yielding...".

Definition summary_line (id n : Z) : string :=
  "Thread " ++ show_int id ++ " finished execution in " ++ show_int n ++
  " milliseconds".

(** The lines of a worker's output. *)
Definition spec_worker_lines (id n : Z) : list string :=
  (replicate (if bool_decide (id = 1) then 10%nat else 0%nat) (yield_notice id) ++
   [summary_line id n])%list.

(** ** The driver *)

(** [main] constructs [std::thread] objects and joins them.  A handle is
    the index of the thread in the order of construction.  Construction
    can fail; what happens then is [refuse_step] below. *)
Inductive drv (A : Type) : Type :=
| DRet (a : A)
| ThreadNew (f : Z -> prog unit) (arg : Z) (k : nat -> drv A)
| ThreadJoin (t : nat) (k : drv A).

Arguments DRet {A} a.
Arguments ThreadNew {A} f arg k.
Arguments ThreadJoin {A} t k.

Fixpoint drv_bind {A B : Type} (f : A -> drv B) (m : drv A) : drv B :=
  match m with
  | DRet a => f a
  | ThreadNew g arg k => ThreadNew g arg (fun t => drv_bind f (k t))
  | ThreadJoin t k => ThreadJoin t (drv_bind f k)
  end.

#[export] Instance drv_mret : MRet drv := @DRet.
#[export] Instance drv_mbind : MBind drv := @drv_bind.

Definition std_thread (f : Z -> prog unit) (arg : Z) : drv nat :=
  ThreadNew f arg DRet.
Definition join (t : nat) : drv unit := ThreadJoin t (DRet tt).

(** [int main()]. *)
Definition main : drv Z :=
  t1 ← std_thread worker 1;
  t2 ← std_thread worker 2;
  t3 ← std_thread worker 3;
  join t1;;
  join t2;;
  join t3;;
  mret 0.

(** ** The running program *)

Inductive devent : Type :=
| DevSpawn (t : nat) (f : Z -> prog unit) (arg : Z)
| DevJoin (t : nat)
| DevReturn (code : Z).

(** A thread: the routine and argument it was constructed with, what is
    left of its body, and the events it has performed. *)
Record thread : Type := Thread {
  t_entry : Z -> prog unit;
  t_arg : Z;
  t_code : prog unit;
  t_log : list event
}.

(** The process: what is left of [main], the exit code once [main] has
    returned, the threads in order of construction, the chunks written to
    the shared stream, the driver's own events, whether the process has
    been aborted and the base the stream writes integers in.  One
    [operator<<] is one chunk, so the chunks of two threads can alternate
    inside a line; each chunk carries the index of its writer, which the
    stream itself does not record, so that what one thread wrote can be
    told. *)
Record sys : Type := Sys {
  s_main : drv Z;
  s_exit : option Z;
  s_threads : list thread;
  s_cout : list (nat * string);
  s_dlog : list devent;
  s_aborted : bool;
  s_flags : radix
}.

Definition init : sys := Sys main None [] [] [] false Dec.

(** One call of a thread body; [now] is what the clock reads if asked. *)
Definition prog_step {A : Type} (r : radix) (p : prog A)
  (now : chrono.time_point) : option (event * prog A) :=
  match p with
  | Ret _ => None
  | ClockNow k => Some (EvNow now, k now)
  | Cout s k => Some (EvCout s, k)
  | CoutInt bits n k => Some (EvCout (show_int_in r bits n), k)
  | ThreadYield k => Some (EvYield, k)
  | SleepFor ms k => Some (EvSleepFor ms, k)
  end.

Definition written (i : nat) (ev : event) : list (nat * string) :=
  match ev with EvCout s => [(i, s)] | _ => [] end.

(** The scheduler picks who moves next; the system may refuse the
    thread [main] is about to construct. *)
Inductive choice : Type :=
| RunMain
| RunThread (i : nat) (now : chrono.time_point)
| RefuseThread.

(** One statement of [main], when the system starts the thread asked
    for.  A [join] returns only when the thread has run to its end; until
    then [main] cannot move. *)
Definition main_step (s : sys) : option sys :=
  match s_main s with
  | DRet code =>
      Some (Sys (DRet code) (Some code) (s_threads s) (s_cout s)
              (s_dlog s ++ [DevReturn code]) false (s_flags s))
  | ThreadNew f arg k =>
      let t := length (s_threads s) in
      Some (Sys (k t) None (s_threads s ++ [Thread f arg (f arg) []])
              (s_cout s) (s_dlog s ++ [DevSpawn t f arg]) false (s_flags s))
  | ThreadJoin t k =>
      match s_threads s !! t with
      | Some th =>
          match t_code th with
          | Ret _ =>
              Some (Sys k None (s_threads s) (s_cout s)
                      (s_dlog s ++ [DevJoin t]) false (s_flags s))
          | _ => None
          end
      | None => None
      end
  end.

Definition thread_step (i : nat) (now : chrono.time_point) (s : sys)
  : option sys :=
  match s_threads s !! i with
  | Some th =>
      match prog_step (s_flags s) (t_code th) now with
      | Some (ev, p') =>
          Some (Sys (s_main s) None
                  (<[i := Thread (t_entry th) (t_arg th) p' (t_log th ++ [ev])]>
                     (s_threads s))
                  (s_cout s ++ written i ev) (s_dlog s) false (s_flags s))
      | None => None
      end
  | None => None
  end.

(** The constructor of [std::thread] throws when the system cannot start
    the thread; [main] has no handler, so the process is aborted where it
    stands. *)
Definition refuse_step (s : sys) : option sys :=
  match s_main s with
  | ThreadNew _ _ _ =>
      Some (Sys (s_main s) None (s_threads s) (s_cout s) (s_dlog s) true
              (s_flags s))
  | _ => None
  end.

(** Nothing moves once [main] has returned or the process has been
    aborted: the process is gone. *)
Definition sched_step (c : choice) (s : sys) : option sys :=
  match s_exit s, s_aborted s with
  | None, false =>
      match c with
      | RunMain => main_step s
      | RunThread i now => thread_step i now s
      | RefuseThread => refuse_step s
      end
  | _, _ => None
  end.

Fixpoint sched_run (cs : list choice) (s : sys) : option sys :=
  match cs with
  | [] => Some s
  | c :: cs' =>
      match sched_step c s with
      | Some s' => sched_run cs' s'
      | None => None
      end
  end.

Definition step (s s' : sys) : Prop := exists c, sched_step c s = Some s'.

Definition reachable (s : sys) : Prop := rtc step init s.

(** The chunks thread [i] has put on the shared stream, in order. *)
Definition cout_of (i : nat) (out : list (nat * string)) : list string :=
  omap (fun c => if Nat.eqb (fst c) i then Some (snd c) else None) out.

Definition couts (tr : list event) : list string :=
  omap (fun e => match e with EvCout s => Some s | _ => None end) tr.

(** The text thread [i] has put on the shared stream. *)
Definition text_of (chunks : list string) : string :=
  foldr String.append EmptyString chunks.

Definition written_by (i : nat) (s : sys) : string :=
  text_of (cout_of i (s_cout s)).

(** The events the driver has ahead of it when [next] threads exist. *)
Fixpoint drv_events (d : drv Z) (next : nat) : list devent :=
  match d with
  | DRet code => [DevReturn code]
  | ThreadNew f arg k => DevSpawn next f arg :: drv_events (k next) (S next)
  | ThreadJoin t k => DevJoin t :: drv_events k next
  end.

(** The traces a body can leave with the stream in decimal, over all
    clock readings. *)
Inductive has_trace {A : Type} : prog A -> list event -> A -> Prop :=
| ht_ret (a : A) : has_trace (Ret a) [] a
| ht_step (p p' : prog A) (now : Z) (ev : event) (tr : list event) (a : A) :
    prog_step Dec p now = Some (ev, p') ->
    has_trace p' tr a ->
    has_trace p (ev :: tr) a.

(** ** Invariants *)

Definition spawn_of (e : devent) : option ((Z -> prog unit) * Z) :=
  match e with DevSpawn _ f arg => Some (f, arg) | _ => None end.

Definition thread_origin (th : thread) : (Z -> prog unit) * Z :=
  (t_entry th, t_arg th).

(** A thread that ran [worker id] to its end. *)
Definition completed (id : Z) (th : thread) : Prop :=
  t_entry th = worker /\ t_arg th = id /\ t_code th = Ret tt /\
  exists starting ending, t_log th = spec_worker_trace id starting ending.

Definition steps_taken (s : sys) : nat :=
  (length (s_dlog s) + sum_list_with (fun th => length (t_log th)) (s_threads s) +
   (if s_aborted s then 1 else 0))%nat.

(** What holds of every state the program can be in. *)
Record invariant (s : sys) : Prop := Invariant {
  inv_traces : forall i th,
    s_threads s !! i = Some th ->
    forall tr, has_trace (t_code th) tr tt ->
               has_trace (t_entry th (t_arg th)) (t_log th ++ tr)%list tt;
  inv_cout : forall i th,
    s_threads s !! i = Some th -> cout_of i (s_cout s) = couts (t_log th);
  inv_writers : forall i,
    (length (s_threads s) <= i)%nat -> cout_of i (s_cout s) = [];
  inv_dlog :
    (s_dlog s ++
     match s_exit s with
     | Some _ => []
     | None => drv_events (s_main s) (length (s_threads s))
     end)%list = drv_events main 0;
  inv_spawned : thread_origin <$> s_threads s = omap spawn_of (s_dlog s);
  inv_exit : forall code,
    s_exit s = Some code -> In (DevReturn code) (s_dlog s);
  inv_aborted : s_aborted s = true -> s_exit s = None;
  inv_flags : s_flags s = Dec;
  inv_joined : forall t,
    In (DevJoin t) (s_dlog s) ->
    exists th, s_threads s !! t = Some th /\ t_code th = Ret tt
}.

(** The number of moves a thread on [worker id] makes. *)
Definition worker_steps (id : Z) : nat :=
  if bool_decide (id = 1) then 57%nat else 17%nat.

(** ** A sample run

    The three threads are constructed, then run one after the other to
    completion, then joined.  The first thread reads the clock at 5 ns and
    at 1099.9 ms after that. *)
Definition run_thread_to_end (i : nat) (starting ending : Z) (n : nat)
  : list choice :=
  RunThread i starting :: replicate n (RunThread i ending).

Definition sample_schedule : list choice :=
  [RunMain; RunMain; RunMain] ++
  run_thread_to_end 0 5 1099900005 56 ++
  run_thread_to_end 1 7 1000000007 16 ++
  run_thread_to_end 2 9 1000999999 16 ++
  [RunMain; RunMain; RunMain; RunMain].

Definition sample_final : sys :=
  default init (sched_run sample_schedule init).

Definition sample_clock (n : nat) : chrono.time_point :=
  match n with O => 5 | _ => 1099900005 end.

(** ** Further definitions *)

(** A text with no space in it. *)
Fixpoint no_space (s : string) : bool :=
  match s with
  | EmptyString => true
  | String c s' => negb (Ascii.eqb c " "%char) && no_space s'
  end.

(** The whole text on the shared stream, whoever wrote it. *)
Definition stream_text (s : sys) : string := text_of (snd <$> s_cout s).

(** The sample run stopped after 20 moves: the first thread is in its
    fourth iteration, the other two have not moved. *)
Definition sample_midway : sys :=
  default init (sched_run (take 20 sample_schedule) init).

(** A second complete run, with the same clock readings: the second and
    third threads sleep first and then write the chunks of their summary
    lines in turn, one chunk each. *)
Definition mixed_schedule : list choice :=
  [RunMain; RunMain; RunMain] ++
  run_thread_to_end 1 7 1000000007 11 ++
  run_thread_to_end 2 9 1000999999 11 ++
  concat (replicate 5 [RunThread 1 0; RunThread 2 0]) ++
  run_thread_to_end 0 5 1099900005 56 ++
  [RunMain; RunMain; RunMain; RunMain].

Definition mixed_final : sys :=
  default init (sched_run mixed_schedule init).

(** Reading a decimal number back, with the library's own reader. *)
Definition read_int (s : string) : option Z :=
  Z.of_int <$> NilZero.int_of_string s.



(** A clock that is set back two milliseconds after its first reading. *)
Definition set_back_clock (n : nat) : chrono.time_point :=
  match n with O => 2000000 | _ => 0 end.

(** The run in which the system refuses the second thread. *)
Definition refused_state : sys :=
  default init (sched_run [RunMain; RefuseThread] init).

(** ** The worker in time

    Time is counted in the clock's ticks.  [now()] reads the time it is
    called at; [sleep_for (ms)] lets at least [ms] milliseconds pass; and
    every call takes some more time, its cost, which stands for the call
    itself and for whatever the scheduler makes the thread wait: the
    [k]-th call of a run costs [tw_cost k]. *)
Record timed : Type := Timed {
  tw_now : Z;
  tw_cost : nat -> Z;
  tw_calls : nat;
  tw_trace : list event
}.

Definition spend (asleep : Z) (e : event) (w : timed) : timed :=
  Timed (tw_now w + asleep + tw_cost w (tw_calls w)) (tw_cost w)
    (S (tw_calls w)) (tw_trace w ++ [e]).

Fixpoint timed_run {A : Type} (p : prog A) (w : timed) : A * timed :=
  match p with
  | Ret a => (a, w)
  | ClockNow k => timed_run (k (tw_now w)) (spend 0 (EvNow (tw_now w)) w)
  | Cout s k => timed_run k (spend 0 (EvCout s) w)
  | CoutInt bits n k =>
      timed_run k (spend 0 (EvCout (show_int_in Dec bits n)) w)
  | ThreadYield k => timed_run k (spend 0 EvYield w)
  | SleepFor ms k =>
      timed_run k (spend (ms * chrono.ticks_per_millisecond) (EvSleepFor ms) w)
  end.

Definition timed_emitted {A : Type} (p : prog A) (w : timed) : list event :=
  drop (length (tw_trace w)) (tw_trace (timed_run p w).2).


(** The time an event lets pass besides its cost. *)
Definition asleep (e : event) : Z :=
  match e with
  | EvSleepFor ms => ms * chrono.ticks_per_millisecond
  | _ => 0
  end.



Definition overloaded : timed :=
  Timed 5 (fun k => if Nat.eqb k 9 then 600000000 else 1000000) 0 [].

(** * Proofs *)

(** A fact about the specified trace is checked for [id = 1] and for the
    other ids. *)
Ltac by_id :=
  unfold spec_worker_trace, spec_iteration; case_bool_decide; reflexivity.

(** ** Text *)

Section Text.

Local Open Scope string_scope.

Implicit Types a b c acc rest : string.

Lemma string_app_assoc a b c : (a ++ b) ++ c = a ++ (b ++ c).
Proof. induction a as [|x a IH]; simpl; [reflexivity | now rewrite IH]. Qed.

Lemma string_app_nil_r a : a ++ EmptyString = a.
Proof. induction a as [|x a IH]; simpl; [reflexivity | now rewrite IH]. Qed.

Lemma list_ascii_app a b :
  list_ascii_of_string (a ++ b) =
  (list_ascii_of_string a ++ list_ascii_of_string b)%list.
Proof. induction a as [|x a IH]; simpl; [reflexivity | now rewrite IH]. Qed.

Lemma no_lf_app a b : no_lf (a ++ b) = no_lf a && no_lf b.
Proof.
  induction a as [|x a IH]; simpl; [reflexivity|].
  rewrite IH. now destruct (Ascii.eqb x LFchar).
Qed.

Lemma no_lf_uint (d : Decimal.uint) : no_lf (NilEmpty.string_of_uint d) = true.
Proof. induction d; simpl; auto. Qed.

Lemma no_lf_show_int (n : Z) : no_lf (show_int n) = true.
Proof.
  unfold show_int. destruct (Z.to_int n) as [d|d]; simpl.
  - destruct d; simpl; auto using no_lf_uint.
  - destruct d; simpl; auto using no_lf_uint.
Qed.

(** A terminated line is split off whole. *)
Lemma split_lines_line a acc rest :
  no_lf a = true ->
  split_lines acc (a ++ LF ++ rest) = (acc ++ a) :: split_lines EmptyString rest.
Proof.
  revert acc. induction a as [|x a IH]; intros acc Ha; simpl in *.
  - now rewrite string_app_nil_r.
  - apply andb_prop in Ha as [Hx Ha].
    destruct (Ascii.eqb x LFchar); [discriminate|].
    rewrite IH by assumption. now rewrite string_app_assoc.
Qed.

Lemma lines_cons a rest :
  no_lf a = true -> lines (a ++ LF ++ rest) = a :: lines rest.
Proof. intros Ha. unfold lines. now rewrite split_lines_line. Qed.

Lemma is_prefix_refl_app (p x : list ascii) : is_prefix p (p ++ x) = true.
Proof.
  induction p as [|c p IH]; simpl; [reflexivity|].
  now rewrite Ascii.eqb_refl, IH.
Qed.

Lemma starts_with_app a b : starts_with a (a ++ b) = true.
Proof. unfold starts_with. rewrite list_ascii_app. apply is_prefix_refl_app. Qed.

Lemma ends_with_app_eq suf a b :
  ends_with suf (a ++ b) =
  is_prefix (rev (list_ascii_of_string suf))
    (rev (list_ascii_of_string b) ++ rev (list_ascii_of_string a)).
Proof. unfold ends_with. now rewrite list_ascii_app, rev_app_distr. Qed.

Lemma ends_with_app a b : ends_with b (a ++ b) = true.
Proof. rewrite ends_with_app_eq. apply is_prefix_refl_app. Qed.

Lemma is_summary_summary_line (id n : Z) : is_summary (summary_line id n) = true.
Proof.
  unfold is_summary, summary_line. rewrite starts_with_app.
  rewrite <- !string_app_assoc, ends_with_app. reflexivity.
Qed.

Lemma is_yield_notice_summary_line (id n : Z) :
  is_yield_notice (summary_line id n) = false.
Proof.
  unfold is_yield_notice, summary_line. rewrite starts_with_app.
  rewrite <- !string_app_assoc, ends_with_app_eq. reflexivity.
Qed.

Lemma is_yield_notice_yield_notice (id : Z) :
  is_yield_notice (yield_notice id) = true.
Proof.
  unfold is_yield_notice, yield_notice. rewrite starts_with_app.
  rewrite <- !string_app_assoc, ends_with_app. reflexivity.
Qed.

Lemma is_summary_yield_notice (id : Z) : is_summary (yield_notice id) = false.
Proof.
  unfold is_summary, yield_notice. rewrite starts_with_app.
  rewrite <- !string_app_assoc, ends_with_app_eq. reflexivity.
Qed.

Lemma no_lf_summary_line (id n : Z) : no_lf (summary_line id n) = true.
Proof.
  unfold summary_line. rewrite !no_lf_app, !no_lf_show_int. reflexivity.
Qed.

Lemma no_lf_yield_notice (id : Z) : no_lf (yield_notice id) = true.
Proof.
  unfold yield_notice. rewrite !no_lf_app, !no_lf_show_int. reflexivity.
Qed.

End Text.

(** Telling the two kinds of line apart. *)
Create Rewrite HintDb line_kinds.

#[export] Hint Rewrite is_summary_summary_line is_summary_yield_notice
  is_yield_notice_summary_line is_yield_notice_yield_notice : line_kinds.

Section Sequential.

Lemma lines_unlines (ls : list string) :
  Forall (fun l => no_lf l = true) ls -> lines (unlines ls) = ls.
Proof.
  induction 1 as [|l ls Hl _ IH]; [reflexivity|].
  change (unlines (l :: ls)) with (l ++ LF ++ unlines ls)%string.
  rewrite lines_cons by assumption. now rewrite IH.
Qed.

Lemma run_bind {A B} (m : prog A) (f : A -> prog B) (w : world) :
  run (m ≫= f) w = run (f (run m w).1) (run m w).2.
Proof.
  unfold run. revert w.
  induction m as [a|k IH|s k IH|bits n k IH|k IH|ms k IH]; intros w; simpl; auto.
Qed.

(** The loop runs its body at [i], [i + 1], ..., [n - 1], in this order,
    and at nothing else. *)
Lemma for_lt_unroll (i n : Z) (body : Z -> prog unit) :
  for_lt i n body =
  foldr (fun j rest => body j ≫= (fun _ => rest)) (Ret tt) (seqZ i (n - i)).
Proof.
  funelim (for_lt i n body).
  - rewrite H by exact tt. replace (n - i) with (Z.succ (n - (i + 1))) by lia.
    rewrite (seqZ_cons i) by lia. simpl.
    replace (Z.pred (Z.succ (n - (i + 1)))) with (n - (i + 1)) by lia.
    replace (Z.succ i) with (i + 1) by lia. reflexivity.
  - rewrite seqZ_nil by lia. reflexivity.
Qed.

Lemma seqZ_0_10 : seqZ 0 (10 - 0) = [0; 1; 2; 3; 4; 5; 6; 7; 8; 9].
Proof. reflexivity. Qed.

(** What a body does to the trace does not depend on the trace. *)
Lemma run_in_frame {A} (r : radix) (p : prog A) (clk : nat -> Z) (n : nat)
  (pre : list event) :
  run_in r p (World clk n pre) =
  ((run_in r p (World clk n [])).1,
   World clk (reads (run_in r p (World clk n [])).2)
     (pre ++ trace (run_in r p (World clk n [])).2)).
Proof.
  revert clk n pre.
  induction p as [a|k IH|s k IH|bits m k IH|k IH|ms k IH];
    intros clk n pre; simpl; unfold record_event; simpl.
  - now rewrite app_nil_r.
  - rewrite (IH _ clk (S n) (pre ++ _)), (IH _ clk (S n) [_]).
    simpl. now rewrite <- app_assoc.
  - rewrite (IH clk n (pre ++ _)), (IH clk n [_]).
    simpl. now rewrite <- app_assoc.
  - rewrite (IH clk n (pre ++ _)), (IH clk n [_]).
    simpl. now rewrite <- app_assoc.
  - rewrite (IH clk n (pre ++ _)), (IH clk n [_]).
    simpl. now rewrite <- app_assoc.
  - rewrite (IH clk n (pre ++ _)), (IH clk n [_]).
    simpl. now rewrite <- app_assoc.
Qed.

Lemma run_frame {A} (p : prog A) (w : world) :
  let r := run p (World (clock w) (reads w) []) in
  run p w = (r.1, World (clock w) (reads r.2) (trace w ++ trace r.2)).
Proof. destruct w as [clk n pre]. apply run_in_frame. Qed.

Lemma run_worker (id : Z) (w : world) :
  run (worker id) w =
  (tt, World (clock w) (S (S (reads w)))
         (trace w ++
          spec_worker_trace id (clock w (reads w)) (clock w (S (reads w))))).
Proof.
  rewrite run_frame. destruct w as [clk n pre].
  unfold worker, spec_worker_trace, spec_iteration.
  rewrite for_lt_unroll, seqZ_0_10.
  case_bool_decide as Hid.
  - subst id. reflexivity.
  - apply Z.eqb_neq in Hid. rewrite Hid. reflexivity.
Qed.

Lemma emitted_worker (id : Z) (w : world) :
  emitted (worker id) w =
  spec_worker_trace id (clock w (reads w)) (clock w (S (reads w))).
Proof.
  unfold emitted. rewrite run_worker. simpl. now rewrite drop_app_length.
Qed.

Lemma output_of_app (t1 t2 : list event) :
  output_of (t1 ++ t2) = (output_of t1 ++ output_of t2)%string.
Proof.
  induction t1 as [|[t|s| |ms] t1 IH]; simpl; try assumption; [reflexivity|].
  now rewrite IH, string_app_assoc.
Qed.

Lemma unlines_app (l1 l2 : list string) :
  unlines (l1 ++ l2) = (unlines l1 ++ unlines l2)%string.
Proof.
  induction l1 as [|l l1 IH]; [reflexivity|].
  change (unlines ((l :: l1) ++ l2)) with (l ++ LF ++ unlines (l1 ++ l2))%string.
  change (unlines (l :: l1)) with (l ++ LF ++ unlines l1)%string.
  now rewrite IH, !string_app_assoc.
Qed.

Lemma output_spec_summary_events (id n : Z) :
  output_of (spec_summary_events id n) = (summary_line id n ++ LF)%string.
Proof.
  unfold spec_summary_events, summary_line. cbn [output_of].
  rewrite !string_app_assoc. reflexivity.
Qed.

Lemma output_spec_worker_trace (id starting ending : Z) :
  output_of (spec_worker_trace id starting ending) =
  unlines (spec_worker_lines id (elapsed_ms starting ending)).
Proof.
  unfold spec_worker_trace, spec_worker_lines.
  cbn [output_of]. rewrite output_of_app, unlines_app. cbn [output_of].
  rewrite output_spec_summary_events.
  replace (unlines [summary_line id (elapsed_ms starting ending)])
    with (summary_line id (elapsed_ms starting ending) ++ LF)%string
    by (unfold unlines; cbn [foldr]; now rewrite string_app_nil_r).
  f_equal. unfold spec_iteration, yield_notice.
  case_bool_decide as Hid; [subst id|]; reflexivity.
Qed.

Lemma spec_worker_lines_no_lf (id n : Z) :
  Forall (fun l => no_lf l = true) (spec_worker_lines id n).
Proof.
  unfold spec_worker_lines. apply Forall_app. split.
  - apply Forall_replicate, no_lf_yield_notice.
  - repeat constructor. apply no_lf_summary_line.
Qed.

Lemma lines_spec_worker_trace (id starting ending : Z) :
  lines (output_of (spec_worker_trace id starting ending)) =
  spec_worker_lines id (elapsed_ms starting ending).
Proof.
  rewrite output_spec_worker_trace. apply lines_unlines, spec_worker_lines_no_lf.
Qed.

End Sequential.

Section Traces.

Lemma has_trace_total {A} (p : prog A) : exists tr a, has_trace p tr a.
Proof.
  induction p as [a|k IH|s k IH|bits n k IH|k IH|ms k IH].
  - exists [], a. constructor.
  - destruct (IH 0) as (tr & a & Htr). exists (EvNow 0 :: tr), a.
    now apply (ht_step (ClockNow k) (k 0) 0).
  - destruct IH as (tr & a & Htr). exists (EvCout s :: tr), a.
    now apply (ht_step (Cout s k) k 0).
  - destruct IH as (tr & a & Htr).
    exists (EvCout (show_int_in Dec bits n) :: tr), a.
    now apply (ht_step (CoutInt bits n k) k 0).
  - destruct IH as (tr & a & Htr). exists (EvYield :: tr), a.
    now apply (ht_step (ThreadYield k) k 0).
  - destruct IH as (tr & a & Htr). exists (EvSleepFor ms :: tr), a.
    now apply (ht_step (SleepFor ms k) k 0).
Qed.

(** A trace is a run against a clock that gives the trace's readings. *)
Lemma has_trace_run {A} (p : prog A) (tr : list event) (a : A) :
  has_trace p tr a ->
  forall (clk : nat -> Z) (n : nat) (pre : list event),
    (forall j t, clock_reads tr !! j = Some t -> clk (n + j)%nat = t) ->
    run p (World clk n pre) =
    (a, World clk (n + length (clock_reads tr))%nat (pre ++ tr)).
Proof.
  induction 1 as [a|p p' now ev tr a Hstep _ IH]; intros clk n pre Hclk.
  - unfold run. simpl. now rewrite Nat.add_0_r, app_nil_r.
  - unfold run in *.
    destruct p; simpl in Hstep; inversion Hstep; subst; simpl;
      unfold record_event; simpl.
    + assert (clk n = now) as -> by
        (rewrite <- (Hclk 0%nat now eq_refl); now rewrite Nat.add_0_r).
      rewrite (IH clk (S n) (pre ++ [EvNow now])).
      * unfold clock_reads; simpl. now rewrite <- app_assoc, Nat.add_succ_r.
      * intros j t Hj. rewrite <- (Hclk (S j) t) by exact Hj.
        now rewrite Nat.add_succ_r.
    + rewrite (IH clk n (pre ++ [EvCout s])) by exact Hclk.
      now rewrite <- app_assoc.
    + rewrite (IH clk n (pre ++ [EvCout (show_int n0)])) by exact Hclk.
      now rewrite <- app_assoc.
    + rewrite (IH clk n (pre ++ [EvYield])) by exact Hclk.
      now rewrite <- app_assoc.
    + rewrite (IH clk n (pre ++ [EvSleepFor ms])) by exact Hclk.
      now rewrite <- app_assoc.
Qed.

Lemma has_trace_worker (id : Z) (tr : list event) :
  has_trace (worker id) tr tt ->
  exists starting ending,
    clock_reads tr = [starting; ending] /\
    tr = spec_worker_trace id starting ending.
Proof.
  intros Htr.
  pose (clk := fun j : nat => default 0 (clock_reads tr !! j)).
  pose proof (has_trace_run _ _ _ Htr clk 0%nat []) as Hrun.
  rewrite run_worker in Hrun. simpl in Hrun.
  assert (tr = spec_worker_trace id (clk 0%nat) (clk 1%nat)) as Heq.
  { assert (forall j t, clock_reads tr !! j = Some t -> clk j = t) as Hclk.
    { intros j t Hj. unfold clk. now rewrite Hj. }
    specialize (Hrun Hclk). now inversion Hrun. }
  exists (clk 0%nat), (clk 1%nat). split; [|exact Heq].
  rewrite Heq at 1. by_id.
Qed.

Lemma length_spec_worker_trace (id starting ending : Z) :
  length (spec_worker_trace id starting ending) =
  if bool_decide (id = 1) then 57%nat else 17%nat.
Proof. by_id. Qed.

End Traces.

Section Invariant.

Lemma step_cases (s s' : sys) :
  step s s' ->
  s_exit s = None /\ s_aborted s = false /\
  ((exists code, s_main s = DRet code /\
      s' = Sys (DRet code) (Some code) (s_threads s) (s_cout s)
             (s_dlog s ++ [DevReturn code]) false (s_flags s)) \/
   (exists f arg k, s_main s = ThreadNew f arg k /\
      s' = Sys (k (length (s_threads s))) None
             (s_threads s ++ [Thread f arg (f arg) []]) (s_cout s)
             (s_dlog s ++ [DevSpawn (length (s_threads s)) f arg]) false
             (s_flags s)) \/
   (exists t k th, s_main s = ThreadJoin t k /\
      s_threads s !! t = Some th /\ t_code th = Ret tt /\
      s' = Sys k None (s_threads s) (s_cout s) (s_dlog s ++ [DevJoin t])
             false (s_flags s)) \/
   (exists i now th ev p', s_threads s !! i = Some th /\
      prog_step (s_flags s) (t_code th) now = Some (ev, p') /\
      s' = Sys (s_main s) None
             (<[i := Thread (t_entry th) (t_arg th) p' (t_log th ++ [ev])]>
                (s_threads s))
             (s_cout s ++ written i ev) (s_dlog s) false (s_flags s)) \/
   (exists f arg k, s_main s = ThreadNew f arg k /\
      s' = Sys (s_main s) None (s_threads s) (s_cout s) (s_dlog s) true
             (s_flags s))).
Proof.
  intros [c Hc]. unfold sched_step in Hc.
  destruct (s_exit s) eqn:Hexit; [discriminate|].
  destruct (s_aborted s) eqn:Hab; [discriminate|].
  split; [reflexivity|]. split; [reflexivity|].
  destruct c as [|i now|].
  - unfold main_step in Hc. destruct (s_main s) as [code|f arg k|t k] eqn:Hmain.
    + left. exists code. split; [reflexivity | congruence].
    + right; left. exists f, arg, k. split; [reflexivity | congruence].
    + right; right; left.
      destruct (s_threads s !! t) as [th|] eqn:Hth; [|discriminate].
      destruct (t_code th) as [[]| | | | |] eqn:Hcode; try discriminate.
      exists t, k, th. repeat split; congruence.
  - right; right; right; left. unfold thread_step in Hc.
    destruct (s_threads s !! i) as [th|] eqn:Hth; [|discriminate].
    destruct (prog_step (s_flags s) (t_code th) now) as [[ev p']|] eqn:Hp;
      [|discriminate].
    exists i, now, th, ev, p'. repeat split; congruence.
  - right; right; right; right. unfold refuse_step in Hc.
    destruct (s_main s) as [code|f arg k|t k] eqn:Hmain; try discriminate.
    exists f, arg, k. split; [reflexivity | congruence].
Qed.

Lemma cout_of_app (i : nat) (o1 o2 : list (nat * string)) :
  cout_of i (o1 ++ o2) = cout_of i o1 ++ cout_of i o2.
Proof. apply omap_app. Qed.

Lemma couts_app (t1 t2 : list event) : couts (t1 ++ t2) = couts t1 ++ couts t2.
Proof. apply omap_app. Qed.

Lemma cout_of_written (i j : nat) (ev : event) :
  cout_of j (written i ev) = if Nat.eqb i j then couts [ev] else [].
Proof.
  destruct ev; simpl; now destruct (Nat.eqb i j).
Qed.

Lemma prog_step_Ret_None {A} (r : radix) (p : prog A) (a : A) (now : Z) :
  p = Ret a -> prog_step r p now = None.
Proof. now intros ->. Qed.

Lemma invariant_init : invariant init.
Proof.
  split; simpl; try reflexivity; try discriminate.
  intros t [].
Qed.

Lemma invariant_step (s s' : sys) : invariant s -> step s s' -> invariant s'.
Proof.
  intros [Htr Hcout Hwr Hdlog Hsp Hex Hab Hfl Hj] Hstep.
  apply step_cases in Hstep as (Hexit & Hnab & Hstep). rewrite Hexit in Hdlog.
  destruct Hstep as [(code & Hmain & ->)|[(f & arg & k & Hmain & ->)|
    [(t & k & th & Hmain & Hth & Hcode & ->)|
     [(i & now & th & ev & p' & Hth & Hp & ->)|
      (f & arg & k & Hmain & ->)]]]]; split; simpl;
    try exact Hfl; try discriminate.
  - (* return *) exact Htr.
  - exact Hcout.
  - exact Hwr.
  - rewrite Hmain in Hdlog. simpl in Hdlog. now rewrite app_nil_r.
  - rewrite omap_app, <- Hsp. simpl. now rewrite app_nil_r.
  - intros c Hc. inversion Hc; subst. apply in_or_app. right. now left.
  - intros t Ht. apply in_app_or in Ht as [Ht|[Ht|[]]]; [eauto | discriminate].
  - (* construction *) intros i th Hi tr Hcode.
    apply lookup_snoc_Some in Hi as [[_ Hi]|[_ <-]]; [eauto|].
    simpl in *. exact Hcode.
  - intros i th Hi.
    apply lookup_snoc_Some in Hi as [[_ Hi]|[-> <-]]; [eauto|].
    simpl. now apply Hwr.
  - intros i Hi. rewrite length_app in Hi. simpl in Hi. apply Hwr. lia.
  - rewrite Hmain in Hdlog. simpl in Hdlog.
    rewrite length_app. simpl. rewrite Nat.add_1_r, <- app_assoc. exact Hdlog.
  - rewrite fmap_app, omap_app, Hsp. reflexivity.
  - intros t Ht. apply in_app_or in Ht as [Ht|[Ht|[]]]; [|discriminate].
    destruct (Hj t Ht) as (th & Hth & Hcode). exists th. split; [|exact Hcode].
    now apply lookup_app_l_Some.
  - (* join *) exact Htr.
  - exact Hcout.
  - exact Hwr.
  - rewrite Hmain in Hdlog. simpl in Hdlog. now rewrite <- app_assoc.
  - rewrite omap_app, <- Hsp. simpl. now rewrite app_nil_r.
  - intros t' Ht. apply in_app_or in Ht as [Ht|[Ht|[]]]; [eauto|].
    inversion Ht; subst. eauto.
  - (* a thread moves *) intros j th' Hj' tr Hcode.
    rewrite Hfl in Hp.
    apply list_lookup_insert_Some in Hj' as [(-> & <- & _)|[Hne Hj']]; [|eauto].
    simpl in *. rewrite <- app_assoc. simpl. apply (Htr _ _ Hth).
    now apply (ht_step _ p' now).
  - intros j th' Hj'. rewrite cout_of_app, cout_of_written.
    apply list_lookup_insert_Some in Hj' as [(-> & <- & _)|[Hne Hj']]; simpl.
    + rewrite Nat.eqb_refl, couts_app. f_equal. eauto.
    + apply Nat.eqb_neq in Hne. rewrite Hne, app_nil_r. eauto.
  - intros j Hj'. rewrite length_insert in Hj'.
    rewrite cout_of_app, cout_of_written, (Hwr j Hj').
    apply lookup_lt_Some in Hth.
    assert (i <> j) as Hne by lia. apply Nat.eqb_neq in Hne. now rewrite Hne.
  - now rewrite length_insert.
  - rewrite list_fmap_insert, <- Hsp. apply list_insert_id.
    now rewrite list_lookup_fmap, Hth.
  - intros t Ht. destruct (Hj t Ht) as (th' & Hth' & Hcode).
    destruct (decide (i = t)) as [->|Hne].
    + rewrite Hth in Hth'. inversion Hth'; subst th'.
      now rewrite (prog_step_Ret_None _ _ tt now Hcode) in Hp.
    + exists th'. split; [|exact Hcode]. now rewrite list_lookup_insert_ne.
  - (* the construction is refused *) exact Htr.
  - exact Hcout.
  - exact Hwr.
  - exact Hdlog.
  - exact Hsp.
  - reflexivity.
  - exact Hj.
Qed.

Lemma invariant_reachable (s : sys) : reachable s -> invariant s.
Proof.
  intros Hs. refine (rtc_ind_r invariant init invariant_init _ s Hs).
  intros s1 s2 _ Hstep IH. exact (invariant_step _ _ IH Hstep).
Qed.

End Invariant.

Section Moves.

Lemma main_events :
  drv_events main 0 =
  [DevSpawn 0 worker 1; DevSpawn 1 worker 2; DevSpawn 2 worker 3;
   DevJoin 0; DevJoin 1; DevJoin 2; DevReturn 0].
Proof. reflexivity. Qed.

Lemma join_needs_three (pre post : list devent) (t : nat) :
  pre ++ DevJoin t :: post = drv_events main 0 ->
  length (omap spawn_of pre) = 3%nat /\ (t < 3)%nat.
Proof.
  rewrite main_events. intros H.
  do 7 (destruct pre as [|e pre]; simpl in H;
        [try discriminate H; injection H as -> _; simpl; split; lia
        |injection H as -> H]).
  now destruct pre.
Qed.

Lemma sum_list_with_insert {A} (f : A -> nat) (l : list A) (i : nat) (x y : A) :
  l !! i = Some x ->
  (sum_list_with f (<[i := y]> l) + f x = sum_list_with f l + f y)%nat.
Proof.
  revert i. induction l as [|a l IH]; intros [|i] Hi; simpl in *;
    try discriminate.
  - inversion Hi; subst. lia.
  - specialize (IH i Hi). lia.
Qed.

(** Every move adds one event to one log, or aborts the process. *)
Lemma steps_taken_step (s s' : sys) :
  step s s' -> steps_taken s' = S (steps_taken s).
Proof.
  intros Hstep. apply step_cases in Hstep as (_ & Hnab & Hstep).
  unfold steps_taken. rewrite Hnab.
  destruct Hstep as [(code & Hmain & ->)|[(f & arg & k & Hmain & ->)|
    [(t & k & th & Hmain & Hth & Hcode & ->)|
     [(i & now & th & ev & p' & Hth & Hp & ->)|
      (f & arg & k & Hmain & ->)]]]]; simpl.
  - rewrite length_app. simpl. lia.
  - rewrite length_app, sum_list_with_app. simpl. lia.
  - rewrite length_app. simpl. lia.
  - pose proof (sum_list_with_insert (fun th => length (t_log th)) _ i th
      (Thread (t_entry th) (t_arg th) p' (t_log th ++ [ev])) Hth) as Hsum.
    simpl in Hsum. rewrite length_app in Hsum. simpl in Hsum. lia.
  - lia.
Qed.

Lemma steps_taken_nsteps (n : nat) (s : sys) :
  nsteps step n init s -> steps_taken s = n.
Proof.
  revert s. induction n as [|n IH]; intros s Hn.
  - inversion Hn; subst. reflexivity.
  - apply nsteps_inv_r in Hn as (y & Hy & Hstep).
    rewrite (steps_taken_step _ _ Hstep). f_equal. now apply IH.
Qed.

Lemma sched_run_rtc (cs : list choice) (s s' : sys) :
  sched_run cs s = Some s' -> rtc step s s'.
Proof.
  revert s. induction cs as [|c cs IH]; intros s H; simpl in H.
  - inversion H. constructor.
  - destruct (sched_step c s) as [s1|] eqn:Hc; [|discriminate].
    eapply rtc_l; [exists c; exact Hc | now apply IH].
Qed.

Lemma output_of_couts (tr : list event) : output_of tr = text_of (couts tr).
Proof.
  induction tr as [|[t|str| |ms] tr IH]; simpl; try assumption;
    [reflexivity|].
  unfold couts in *. simpl. now rewrite IH.
Qed.

End Moves.

(** ** States the program can be in *)

Section Reachable.

Variable s : sys.
Hypothesis Hs : reachable s.

Let Hinv : invariant s := invariant_reachable s Hs.

(** The [i]-th thread constructed runs [worker] on [i + 1]. *)
Lemma thread_origin_reachable (i : nat) (th : thread) :
  s_threads s !! i = Some th ->
  thread_origin th = (worker, Z.of_nat i + 1).
Proof.
  intros Hth. pose proof (inv_dlog s Hinv) as Hdlog.
  apply (f_equal (omap spawn_of)) in Hdlog.
  rewrite omap_app, <- (inv_spawned s Hinv), main_events in Hdlog.
  assert ((thread_origin <$> s_threads s) !! i = Some (thread_origin th)) as Hi
    by now rewrite list_lookup_fmap, Hth.
  eapply lookup_app_l_Some in Hi. rewrite Hdlog in Hi.
  destruct i as [|[|[|i]]]; simpl in Hi; [| | |discriminate];
    apply (inj Some) in Hi; now rewrite <- Hi.
Qed.

(** A thread with nothing left to do has done what [worker] does. *)
Lemma completed_reachable (i : nat) (th : thread) :
  s_threads s !! i = Some th -> t_code th = Ret tt ->
  completed (Z.of_nat i + 1) th.
Proof.
  intros Hth Hcode.
  pose proof (thread_origin_reachable i th Hth) as Horig.
  unfold thread_origin in Horig. injection Horig as Hentry Harg.
  repeat split; try assumption.
  pose proof (inv_traces s Hinv i th Hth []) as Htr.
  rewrite Hcode, Hentry, Harg, app_nil_r in Htr. specialize (Htr (ht_ret tt)).
  apply has_trace_worker in Htr as (st & en & _ & Hlog). eauto.
Qed.

(** What a thread has put on the shared stream is what its log says. *)
Lemma written_by_reachable (i : nat) (th : thread) :
  s_threads s !! i = Some th -> written_by i s = output_of (t_log th).
Proof.
  intros Hth. unfold written_by.
  now rewrite (inv_cout s Hinv i th Hth), output_of_couts.
Qed.

Lemma written_by_nobody (i : nat) :
  (length (s_threads s) <= i)%nat -> written_by i s = EmptyString.
Proof. intros Hi. unfold written_by. now rewrite (inv_writers s Hinv i Hi). Qed.

(** Where a run that has returned from [main] stands. *)
Lemma final_state (code : Z) :
  s_exit s = Some code ->
  code = 0 /\ s_dlog s = drv_events main 0 /\
  exists th1 th2 th3,
    s_threads s = [th1; th2; th3] /\
    completed 1 th1 /\ completed 2 th2 /\ completed 3 th3.
Proof.
  intros Hexit.
  pose proof (inv_dlog s Hinv) as Hdlog. rewrite Hexit, app_nil_r in Hdlog.
  pose proof (inv_exit s Hinv code Hexit) as Hret.
  pose proof (inv_spawned s Hinv) as Hsp.
  pose proof (inv_joined s Hinv) as Hj.
  rewrite Hdlog in Hret, Hsp, Hj. rewrite main_events in Hret, Hsp, Hj.
  split; [|split; [exact Hdlog|]].
  - simpl in Hret. intuition (try discriminate). congruence.
  - pose proof completed_reachable as Hdone.
    destruct (s_threads s) as [|th1 [|th2 [|th3 [|th4 ths]]]];
      try discriminate.
    destruct (Hj 0%nat) as (x1 & Hx1 & Hc1); [simpl; auto|].
    destruct (Hj 1%nat) as (x2 & Hx2 & Hc2); [simpl; auto 6|].
    destruct (Hj 2%nat) as (x3 & Hx3 & Hc3); [simpl; auto 7|].
    exists x1, x2, x3. simpl in Hx1, Hx2, Hx3.
    split; [congruence|]. split; [|split].
    + exact (Hdone 0%nat x1 Hx1 Hc1).
    + exact (Hdone 1%nat x2 Hx2 Hc2).
    + exact (Hdone 2%nat x3 Hx3 Hc3).
Qed.

(** Nothing blocks for ever: a state from which [main] has not returned,
    in a process that has not been aborted, has a move that does not
    abort it. *)
Lemma progress :
  s_exit s = None -> s_aborted s = false ->
  exists s', step s s' /\ s_aborted s' = false.
Proof.
  intros Hexit Hab.
  pose proof (inv_dlog s Hinv) as Hdlog. rewrite Hexit in Hdlog.
  unfold step, sched_step. rewrite Hexit, Hab.
  destruct (s_main s) as [code|f arg k|t k] eqn:Hmain.
  - eexists. split; [exists RunMain; unfold main_step; now rewrite Hmain|].
    reflexivity.
  - eexists. split; [exists RunMain; unfold main_step; now rewrite Hmain|].
    reflexivity.
  - simpl in Hdlog. apply join_needs_three in Hdlog as [Hlen Ht].
    rewrite <- (inv_spawned s Hinv), length_fmap in Hlen.
    destruct (lookup_lt_is_Some_2 (s_threads s) t) as [th Hth]; [lia|].
    destruct (t_code th) as [[]|kk|str kk|bits m kk|kk|ms kk] eqn:Hcode;
      [eexists; split;
       [exists RunMain; unfold main_step; now rewrite Hmain, Hth, Hcode
       |reflexivity]
      |eexists; split;
       [exists (RunThread t 0); unfold thread_step; now rewrite Hth, Hcode
       |reflexivity] ..].
Qed.

(** An aborted process has not returned and stands at a construction. *)
Lemma aborted_stuck :
  s_aborted s = true -> s_exit s = None /\ forall s', ~ step s s'.
Proof.
  intros Hab. split; [exact (inv_aborted s Hinv Hab)|].
  intros s' [c Hc]. unfold sched_step in Hc. rewrite Hab in Hc.
  now destruct (s_exit s).
Qed.

Lemma log_bound (i : nat) (th : thread) :
  s_threads s !! i = Some th ->
  (length (t_log th) <= worker_steps (Z.of_nat i + 1))%nat.
Proof.
  intros Hth. pose proof (thread_origin_reachable i th Hth) as Horig.
  unfold thread_origin in Horig. injection Horig as Hentry Harg.
  destruct (has_trace_total (t_code th)) as (tr & [] & Htr).
  apply (inv_traces s Hinv i th Hth) in Htr.
  rewrite Hentry, Harg in Htr.
  apply has_trace_worker in Htr as (st & en & _ & Hlog).
  apply (f_equal length) in Hlog.
  rewrite length_app, length_spec_worker_trace in Hlog.
  unfold worker_steps. lia.
Qed.

(** A run has at most 98 moves: 7 of [main] (the abort, if there is one,
    takes the place of one of them), 57 of the first thread and 17 of
    each of the other two. *)
Lemma steps_bound : (steps_taken s <= 98)%nat.
Proof.
  pose proof (inv_dlog s Hinv) as Hdlog.
  pose proof (inv_spawned s Hinv) as Hsp.
  pose proof log_bound as Hlog.
  assert (exists rest, s_dlog s ++ rest = drv_events main 0) as [rest Hpre]
    by eauto.
  clear Hdlog. rewrite main_events in Hpre.
  pose proof (f_equal length Hpre) as Hlen.
  pose proof (f_equal (fun l => length (omap spawn_of l)) Hpre) as Hor.
  simpl in Hor. rewrite omap_app, <- Hsp, length_app, length_fmap in Hor.
  rewrite length_app in Hlen. simpl in Hlen.
  assert ((length (s_dlog s) + (if s_aborted s then 1 else 0) <= 7)%nat) as Hab.
  { destruct (s_aborted s) eqn:Hab; [|lia].
    pose proof (inv_dlog s Hinv) as Hdlog.
    rewrite (inv_aborted s Hinv Hab) in Hdlog.
    apply (f_equal length) in Hdlog. rewrite length_app in Hdlog.
    simpl in Hdlog. destruct (s_main s); simpl in Hdlog; lia. }
  unfold steps_taken.
  destruct (s_threads s) as [|th1 [|th2 [|th3 [|th4 ths]]]];
    simpl in Hor |- *; [lia| | | |lia].
  - pose proof (Hlog 0%nat th1 eq_refl) as B1.
    change (worker_steps (Z.of_nat 0 + 1)) with 57%nat in B1. lia.
  - pose proof (Hlog 0%nat th1 eq_refl) as B1.
    pose proof (Hlog 1%nat th2 eq_refl) as B2.
    change (worker_steps (Z.of_nat 0 + 1)) with 57%nat in B1.
    change (worker_steps (Z.of_nat 1 + 1)) with 17%nat in B2. lia.
  - pose proof (Hlog 0%nat th1 eq_refl) as B1.
    pose proof (Hlog 1%nat th2 eq_refl) as B2.
    pose proof (Hlog 2%nat th3 eq_refl) as B3.
    change (worker_steps (Z.of_nat 0 + 1)) with 57%nat in B1.
    change (worker_steps (Z.of_nat 1 + 1)) with 17%nat in B2.
    change (worker_steps (Z.of_nat 2 + 1)) with 17%nat in B3. lia.
Qed.

End Reachable.

(** ** The sample run and the lines of a worker *)

Section Facts.

Lemma clock_reads_spec_worker_trace (id starting ending : Z) :
  clock_reads (spec_worker_trace id starting ending) = [starting; ending].
Proof. by_id. Qed.

Lemma sleeps_spec_worker_trace (id starting ending : Z) :
  sleeps (spec_worker_trace id starting ending) = replicate 10 100.
Proof. by_id. Qed.

Lemma last_spec_worker_lines (id n : Z) :
  last (spec_worker_lines id n) = Some (summary_line id n).
Proof. unfold spec_worker_lines. apply last_snoc. Qed.

Lemma filter_replicate {A} (f : A -> bool) (k : nat) (x : A) :
  List.filter f (replicate k x) = if f x then replicate k x else [].
Proof.
  induction k as [|k IH]; simpl; [now destruct (f x)|].
  rewrite IH. now destruct (f x).
Qed.

Lemma filter_summary_spec_worker_lines (id n : Z) :
  List.filter is_summary (spec_worker_lines id n) = [summary_line id n].
Proof.
  unfold spec_worker_lines. rewrite List.filter_app, filter_replicate.
  cbn [List.filter]. now autorewrite with line_kinds.
Qed.

Lemma filter_yield_spec_worker_lines (id n : Z) :
  List.filter is_yield_notice (spec_worker_lines id n) =
  replicate (if bool_decide (id = 1) then 10%nat else 0%nat) (yield_notice id).
Proof.
  unfold spec_worker_lines. rewrite List.filter_app, filter_replicate.
  cbn [List.filter]. autorewrite with line_kinds. apply app_nil_r.
Qed.

Lemma show_int_nonneg (n : Z) : 0 <= n -> starts_with "-" (show_int n) = false.
Proof.
  intros Hn. unfold show_int. destruct n as [|p|p]; [reflexivity| |lia].
  simpl. destruct (Pos.to_uint p); reflexivity.
Qed.

Lemma wrap_in_rep (n : Z) : chrono.in_rep (chrono.wrap n).
Proof.
  unfold chrono.in_rep, chrono.wrap.
  pose proof (Z.mod_pos_bound (n + 2 ^ 63) (2 ^ 64) ltac:(lia)). lia.
Qed.

(** A count that fits 64 bits is not changed by the wrap. *)
Lemma wrap_id (n : Z) : chrono.in_rep n -> chrono.wrap n = n.
Proof.
  unfold chrono.in_rep, chrono.wrap. intros H.
  rewrite Z.mod_small by lia. lia.
Qed.

Lemma minus_no_overflow (starting ending : Z) :
  chrono.in_rep (ending - starting) ->
  chrono.minus ending starting = ending - starting.
Proof. apply wrap_id. Qed.

Lemma elapsed_ms_no_overflow (starting ending : Z) :
  chrono.in_rep (ending - starting) ->
  elapsed_ms starting ending = Z.quot (ending - starting) 1000000.
Proof.
  intros H. unfold elapsed_ms, chrono.count, chrono.duration_cast_milliseconds,
    chrono.ticks_per_millisecond.
  now rewrite minus_no_overflow.
Qed.

(** The count of a duration that is not negative is its floor. *)
Lemma duration_floor (d : Z) :
  0 <= d ->
  Z.quot d 1000000 = d / 1000000 /\
  Z.quot d 1000000 * 1000000 <= d < (Z.quot d 1000000 + 1) * 1000000.
Proof.
  intros H. rewrite Z.quot_div_nonneg by lia. split; [reflexivity|].
  pose proof (Z.div_mod d 1000000 ltac:(lia)).
  pose proof (Z.mod_pos_bound d 1000000 ltac:(lia)). lia.
Qed.

Lemma elapsed_ms_bounds (starting ending : Z) :
  0 <= ending - starting < 2 ^ 63 ->
  elapsed_ms starting ending = (ending - starting) / 1000000 /\
  elapsed_ms starting ending * 1000000 <= ending - starting
    < (elapsed_ms starting ending + 1) * 1000000.
Proof.
  intros H. rewrite elapsed_ms_no_overflow by (unfold chrono.in_rep; lia).
  apply duration_floor. lia.
Qed.

(** A schedule the scheduler accepts leads to a state of a run. *)
Lemma sched_run_reachable (cs : list choice) :
  match sched_run cs init with Some _ => true | None => false end = true ->
  reachable (default init (sched_run cs init)).
Proof.
  destruct (sched_run cs init) as [s|] eqn:H; [intros _|discriminate].
  exact (sched_run_rtc cs init s H).
Qed.

Lemma sample_final_reachable : reachable sample_final.
Proof. apply sched_run_reachable. vm_compute. reflexivity. Qed.

Lemma sample_final_exit : s_exit sample_final = Some 0.
Proof. vm_compute. reflexivity. Qed.

End Facts.

(** ** Reading numbers back, the stream's base, and time *)

Section Timed.

Lemma read_int_show_int (n : Z) : read_int (show_int n) = Some n.
Proof.
  unfold read_int, show_int. rewrite NilZero.isi.
  - simpl. now rewrite DecimalZ.of_to.
  - destruct n as [|p|p]; simpl; try discriminate.
    intros [= Hp]. now apply (DecimalPos.Unsigned.to_uint_nonnil p).
  - destruct n as [|p|p]; simpl; try discriminate.
    intros [= Hp]. now apply (DecimalPos.Unsigned.to_uint_nonnil p).
Qed.







End Timed.

(** * The claims *)

(** C1: for every integer [id] the worker runs its loop body exactly ten
    times; an iteration first writes the yield notice and yields exactly
    when [id] is 1, and every iteration then sleeps 100 milliseconds. *)
Theorem worker_runs_loop_body_ten_times (id : Z) (w : world) :
  emitted (worker id) w =
    EvNow (clock w (reads w)) ::
    concat (replicate 10
      ((if bool_decide (id = 1)
        then [EvCout "Thread "; EvCout (show_int id);
              EvCout (" is yielding..." ++ LF); EvYield]
        else []) ++ [EvSleepFor 100])) ++
    EvNow (clock w (S (reads w))) ::
    spec_summary_events id
      (elapsed_ms (clock w (reads w)) (clock w (S (reads w)))) /\
  sleeps (emitted (worker id) w) = replicate 10 100 /\
  length (List.filter is_yield (emitted (worker id) w)) =
    (if bool_decide (id = 1) then 10%nat else 0%nat) /\
  for_lt 0 10 = fun body =>
    body 0;; body 1;; body 2;; body 3;; body 4;; body 5;; body 6;; body 7;;
    body 8;; body 9;; Ret tt.
Proof.
  rewrite emitted_worker.
  split; [reflexivity|].
  split; [apply sleeps_spec_worker_trace|].
  split; [|reflexivity]. by_id.
Qed.

(** C3: every task writes exactly one summary line, after its ten
    iterations, of the form [Thread <id> finished execution in <N>
    milliseconds]: the text in the place of the id reads back as the id the
    worker was given, and the text in the place of [N] reads back as the
    64-bit difference of the two readings, in whole milliseconds. *)
Theorem worker_writes_one_summary_line (id : Z) (w : world) :
  let starting := clock w (reads w) in
  let ending := clock w (S (reads w)) in
  let n :=
    Z.quot ((ending - starting + 2 ^ 63) mod 2 ^ 64 - 2 ^ 63) 1000000 in
  exists id_text n_text : string,
    read_int id_text = Some id /\ read_int n_text = Some n /\
    let line :=
      ("Thread " ++ id_text ++ " finished execution in " ++ n_text ++
       " milliseconds")%string in
    List.filter is_summary (lines (output_of (emitted (worker id) w))) =
      [line] /\
    last (lines (output_of (emitted (worker id) w))) = Some line /\
    exists before,
      emitted (worker id) w =
        before ++
        [EvCout "Thread "; EvCout id_text; EvCout " finished execution in ";
         EvCout n_text; EvCout (" milliseconds" ++ LF)] /\
      sleeps before = replicate 10 100.
Proof.
  intros starting ending n.
  assert (n = elapsed_ms starting ending) as Hn by reflexivity.
  exists (show_int id), (show_int n).
  split; [apply read_int_show_int|]. split; [apply read_int_show_int|].
  rewrite emitted_worker, lines_spec_worker_trace.
  fold starting ending. rewrite <- Hn.
  split; [apply filter_summary_spec_worker_lines|].
  split; [apply last_spec_worker_lines|].
  exists (EvNow starting :: concat (replicate 10 (spec_iteration id)) ++
          [EvNow ending]).
  split.
  - unfold spec_worker_trace. rewrite <- Hn.
    rewrite <- app_comm_cons, <- app_assoc. reflexivity.
  - unfold spec_iteration. case_bool_decide; reflexivity.
Qed.

Lemma worker_writes_one_summary_line_witness :
  lines (output_of (emitted (worker 2) (World sample_clock 0 []))) =
    ["Thread 2 finished execution in 1099 milliseconds"] /\
  exists id_text n_text : string,
    read_int id_text = Some 2 /\ read_int n_text = Some 1099 /\
    last (lines (output_of (emitted (worker 2) (World sample_clock 0 [])))) =
      Some ("Thread " ++ id_text ++ " finished execution in " ++ n_text ++
            " milliseconds")%string.
Proof.
  split; [vm_compute; reflexivity|].
  destruct (worker_writes_one_summary_line 2 (World sample_clock 0 []))
    as (id_text & n_text & Hid & Hn & _ & Hlast & _).
  exists id_text, n_text. repeat split; assumption.
Defined.

(** C5 (as amended): the two timestamps are readings of one clock,
    [high_resolution_clock], which is not bound to be monotonic.  When the
    end reading is not before the start reading, and less than 2^63 ticks
    after it, the elapsed duration is not negative and the number in the
    summary line is a non-negative integer. *)
Theorem elapsed_is_non_negative (id : Z) (w : world) :
  let starting := clock w (reads w) in
  let ending := clock w (S (reads w)) in
  0 <= ending - starting < 2 ^ 63 ->
  clock_reads (emitted (worker id) w) = [starting; ending] /\
  chrono.minus ending starting = ending - starting /\
  0 <= elapsed_ms starting ending /\
  elapsed_ms starting ending = (ending - starting) / 1000000 /\
  exists n_text : string,
    read_int n_text = Some (elapsed_ms starting ending) /\
    starts_with "-" n_text = false /\
    last (lines (output_of (emitted (worker id) w))) =
      Some ("Thread " ++ show_int id ++ " finished execution in " ++ n_text ++
            " milliseconds")%string.
Proof.
  intros starting ending Hd.
  destruct (elapsed_ms_bounds starting ending Hd) as [Hdiv Hb].
  assert (0 <= elapsed_ms starting ending) as Hn by lia.
  rewrite emitted_worker, lines_spec_worker_trace. fold starting ending.
  split; [apply clock_reads_spec_worker_trace|].
  split; [apply minus_no_overflow; unfold chrono.in_rep; lia|].
  split; [exact Hn|]. split; [exact Hdiv|].
  exists (show_int (elapsed_ms starting ending)).
  split; [apply read_int_show_int|].
  split; [now apply show_int_nonneg|].
  apply last_spec_worker_lines.
Qed.

Lemma elapsed_is_non_negative_witness :
  0 <= sample_clock 1 - sample_clock 0 < 2 ^ 63 /\
  0 <= elapsed_ms (sample_clock 0) (sample_clock 1) /\
  elapsed_ms (sample_clock 0) (sample_clock 1) = 1099.
Proof.
  assert (0 <= sample_clock 1 - sample_clock 0 < 2 ^ 63) as H
    by (simpl; lia).
  split; [exact H|].
  destruct (elapsed_is_non_negative 2 (World sample_clock 0 []) H)
    as (_ & _ & Hn & Hdiv & _).
  split; [exact Hn | exact Hdiv].
Defined.

(** C5 does not hold as the specification has it: the clock need not be
    monotonic, and after it has been set back two milliseconds between
    the two readings of a worker, the elapsed duration is negative and the
    worker prints [-2]. *)
Lemma elapsed_negative_when_clock_set_back :
  clock_reads (emitted (worker 3) (World set_back_clock 0 [])) =
    [2000000; 0] /\
  chrono.minus 0 2000000 = -2000000 /\
  elapsed_ms 2000000 0 = -2 /\
  last (lines (output_of (emitted (worker 3) (World set_back_clock 0 [])))) =
    Some "Thread 3 finished execution in -2 milliseconds".
Proof. vm_compute. repeat split; reflexivity. Qed.

(** C6: the value reported is the end reading minus the start reading,
    cut to whole milliseconds; the start reading is taken before the first
    iteration and the end reading after the last.  The subtraction is the
    64-bit one, which gives the difference of the readings when that
    difference fits 64 bits. *)
Theorem elapsed_is_end_minus_start_in_milliseconds (id : Z) (w : world) :
  let starting := clock w (reads w) in
  let ending := clock w (S (reads w)) in
  let n := Z.quot (ending - starting) 1000000 in
  chrono.in_rep (ending - starting) ->
  emitted (worker id) w =
    EvNow starting :: concat (replicate 10 (spec_iteration id)) ++
    [EvNow ending; EvCout "Thread "; EvCout (show_int id);
     EvCout " finished execution in "; EvCout (show_int n);
     EvCout (" milliseconds" ++ LF)] /\
  read_int (show_int n) = Some n /\
  clock_reads (concat (replicate 10 (spec_iteration id))) = [] /\
  sleeps (concat (replicate 10 (spec_iteration id))) = replicate 10 100 /\
  elapsed_ms starting ending = n /\
  Z.abs (n * 1000000) <= Z.abs (ending - starting) /\
  Z.abs (ending - starting - n * 1000000) < 1000000.
Proof.
  intros starting ending n Hd. rewrite emitted_worker.
  fold starting ending.
  assert (elapsed_ms starting ending = n) as Hn
    by now apply elapsed_ms_no_overflow.
  split; [unfold spec_worker_trace; now rewrite Hn|].
  split; [apply read_int_show_int|].
  split; [unfold spec_iteration; case_bool_decide; reflexivity|].
  split; [unfold spec_iteration; case_bool_decide; reflexivity|].
  split; [exact Hn|].
  unfold n.
  pose proof (Z.quot_rem' (ending - starting) 1000000) as Hqr.
  pose proof (Z.rem_bound_abs (ending - starting) 1000000 ltac:(lia)) as Hr.
  destruct (Z.le_gt_cases 0 (ending - starting)) as [Hp|Hp].
  - pose proof (Z.rem_nonneg (ending - starting) 1000000 ltac:(lia) Hp).
    pose proof (Z.quot_pos (ending - starting) 1000000 Hp ltac:(lia)). lia.
  - pose proof (Z.rem_nonpos (ending - starting) 1000000 ltac:(lia) ltac:(lia)).
    pose proof (Z.quot_opp_l (ending - starting) 1000000 ltac:(lia)) as Ho.
    pose proof (Z.quot_pos (- (ending - starting)) 1000000 ltac:(lia) ltac:(lia)).
    lia.
Qed.

Lemma elapsed_is_end_minus_start_in_milliseconds_witness :
  chrono.in_rep (sample_clock 1 - sample_clock 0) /\
  elapsed_ms (sample_clock 0) (sample_clock 1) = 1099 /\
  last (lines (output_of (emitted (worker 1) (World sample_clock 0 [])))) =
    Some "Thread 1 finished execution in 1099 milliseconds".
Proof.
  assert (chrono.in_rep (sample_clock 1 - sample_clock 0)) as Hd
    by (unfold chrono.in_rep; simpl; lia).
  split; [exact Hd|].
  destruct (elapsed_is_end_minus_start_in_milliseconds 1
              (World sample_clock 0 []) Hd) as (_ & _ & _ & _ & Hn & _).
  split; [exact Hn | vm_compute; reflexivity].
Defined.

(** Where the difference does not fit, the count is that of the wrapped
    difference: one tick before the epoch to the last tick of the clock. *)
Example elapsed_wraps_on_overflow :
  chrono.in_rep (-1) /\ chrono.in_rep (2 ^ 63 - 1) /\
  elapsed_ms (-1) (2 ^ 63 - 1) = -9223372036854.
Proof. unfold chrono.in_rep. repeat split; try lia. Qed.

(** C9: the conversion to milliseconds truncates: for an elapsed duration
    that is not negative (and fits the 64-bit count) the number reported
    is the floor of the duration in milliseconds, never rounded up. *)
Theorem elapsed_is_floor_of_milliseconds (id : Z) (w : world) :
  let starting := clock w (reads w) in
  let ending := clock w (S (reads w)) in
  let d := ending - starting in
  0 <= d < 2 ^ 63 ->
  exists n n_text,
    n = d / 1000000 /\
    n * 1000000 <= d < (n + 1) * 1000000 /\
    read_int n_text = Some n /\
    last (lines (output_of (emitted (worker id) w))) =
      Some ("Thread " ++ show_int id ++ " finished execution in " ++ n_text ++
            " milliseconds")%string.
Proof.
  intros starting ending d Hd.
  destruct (elapsed_ms_bounds starting ending Hd) as [Hdiv Hb].
  exists (elapsed_ms starting ending), (show_int (elapsed_ms starting ending)).
  rewrite emitted_worker, lines_spec_worker_trace. fold starting ending.
  split; [exact Hdiv|]. split; [exact Hb|].
  split; [apply read_int_show_int|]. apply last_spec_worker_lines.
Qed.

(** 1099.9 ms are reported as 1099. *)
Lemma elapsed_is_floor_of_milliseconds_witness :
  sample_clock 1 - sample_clock 0 = 1099900000 /\
  last (lines (output_of (emitted (worker 1) (World sample_clock 0 [])))) =
    Some "Thread 1 finished execution in 1099 milliseconds" /\
  exists n n_text,
    n = 1099900000 / 1000000 /\ read_int n_text = Some n.
Proof.
  split; [reflexivity|]. split; [vm_compute; reflexivity|].
  assert (0 <= sample_clock 1 - sample_clock 0 < 2 ^ 63) as H
    by (simpl; lia).
  destruct (elapsed_is_floor_of_milliseconds 1 (World sample_clock 0 []) H)
    as (n & n_text & Hn & _ & Hread & _).
  exists n, n_text. split; assumption.
Defined.



(** Outside these conditions the bound does not hold: with one call held
    up for 600 ms the worker reports 1610. *)
Example elapsed_when_overloaded :
  last (lines (output_of (timed_emitted (worker 2) overloaded))) =
  Some "Thread 2 finished execution in 1610 milliseconds".
Proof. vm_compute. reflexivity. Qed.

(** C2: in every complete run task 1 writes the line
    [Thread 1 is yielding...] exactly ten times, once per iteration and
    each time before that iteration's sleep, and tasks 2 and 3 write no
    yield notice. *)
Theorem yield_notices_of_a_complete_run (s : sys) (code : Z) :
  reachable s -> s_exit s = Some code ->
  List.filter is_yield_notice (lines (written_by 0 s)) =
    replicate 10 "Thread 1 is yielding..." /\
  List.filter is_yield_notice (lines (written_by 1 s)) = [] /\
  List.filter is_yield_notice (lines (written_by 2 s)) = [] /\
  (forall i, (3 <= i)%nat -> written_by i s = EmptyString) /\
  exists th1 th2 th3 starting ending,
    s_threads s = [th1; th2; th3] /\
    t_arg th1 = 1 /\ t_arg th2 = 2 /\ t_arg th3 = 3 /\
    t_log th1 =
      EvNow starting ::
      concat (replicate 10
        [EvCout "Thread "; EvCout "1"; EvCout (" is yielding..." ++ LF);
         EvYield; EvSleepFor 100]) ++
      EvNow ending :: spec_summary_events 1 (elapsed_ms starting ending).
Proof.
  intros Hs Hexit.
  destruct (final_state s Hs code Hexit) as (_ & _ & th1 & th2 & th3 & Hths &
    (_ & A1 & _ & s1 & e1 & L1) & (_ & A2 & _ & s2 & e2 & L2) &
    (_ & A3 & _ & s3 & e3 & L3)).
  rewrite (written_by_reachable s Hs 0 th1), (written_by_reachable s Hs 1 th2),
    (written_by_reachable s Hs 2 th3) by now rewrite Hths.
  rewrite L1, L2, L3, !lines_spec_worker_trace, !filter_yield_spec_worker_lines.
  split; [reflexivity|]. split; [reflexivity|]. split; [reflexivity|]. split.
  - intros i Hi. apply (written_by_nobody s Hs). rewrite Hths. simpl. lia.
  - exists th1, th2, th3, s1, e1. now repeat split.
Qed.

Lemma yield_notices_of_a_complete_run_witness :
  List.filter is_yield_notice (lines (written_by 0 sample_final)) =
    replicate 10 "Thread 1 is yielding..." /\
  List.filter is_yield_notice (lines (written_by 1 sample_final)) = [] /\
  List.filter is_yield_notice (lines (written_by 2 sample_final)) = [].
Proof.
  destruct (yield_notices_of_a_complete_run sample_final 0
              sample_final_reachable sample_final_exit)
    as (H1 & H2 & H3 & _).
  repeat split; assumption.
Defined.

(** C4 (as amended): when every construction of a thread succeeds, the
    driver constructs exactly three threads on [worker] with the arguments
    1, 2, 3 in this order, joins them in the same order, a join returning
    only once its thread has run to its end, and then returns 0.  A run
    that has neither returned nor been aborted can move on without being
    aborted, and no run has more than 98 moves. *)
Theorem driver_launches_joins_and_returns_zero :
  (forall s code,
     reachable s -> s_exit s = Some code ->
     code = 0 /\ s_aborted s = false /\
     s_dlog s =
       [DevSpawn 0 worker 1; DevSpawn 1 worker 2; DevSpawn 2 worker 3;
        DevJoin 0; DevJoin 1; DevJoin 2; DevReturn 0] /\
     (t_arg <$> s_threads s) = [1; 2; 3] /\
     Forall (fun th => t_entry th = worker) (s_threads s)) /\
  (forall s t,
     reachable s -> In (DevJoin t) (s_dlog s) ->
     exists th, s_threads s !! t = Some th /\ t_code th = Ret tt) /\
  (forall s,
     reachable s -> s_exit s = None -> s_aborted s = false ->
     exists s', step s s' /\ s_aborted s' = false) /\
  (forall n s, nsteps step n init s -> (n <= 98)%nat) /\
  (exists s, reachable s /\ s_exit s = Some 0).
Proof.
  split; [|split; [|split; [exact progress|split]]].
  - intros s code Hs Hexit.
    destruct (final_state s Hs code Hexit) as (Hcode & Hd & th1 & th2 & th3 &
      Hths & (E1 & A1 & _) & (E2 & A2 & _) & (E3 & A3 & _)).
    split; [exact Hcode|]. split.
    { pose proof (inv_aborted s (invariant_reachable s Hs)) as Hab.
      destruct (s_aborted s); [|reflexivity].
      rewrite Hab in Hexit by reflexivity. discriminate. }
    rewrite Hd, Hths. simpl. rewrite A1, A2, A3.
    repeat split; try assumption. repeat constructor; assumption.
  - intros s t Hs Ht. exact (inv_joined s (invariant_reachable s Hs) t Ht).
  - intros n s Hn. rewrite <- (steps_taken_nsteps n s Hn).
    apply steps_bound. now apply (rtc_nsteps_2 n).
  - exists sample_final. split;
      [exact sample_final_reachable | exact sample_final_exit].
Qed.

Lemma driver_launches_joins_and_returns_zero_witness :
  s_exit sample_final = Some 0 /\
  s_dlog sample_final =
    [DevSpawn 0 worker 1; DevSpawn 1 worker 2; DevSpawn 2 worker 3;
     DevJoin 0; DevJoin 1; DevJoin 2; DevReturn 0].
Proof.
  split; [exact sample_final_exit|].
  exact (proj1 (proj2 (proj2 (proj1 driver_launches_joins_and_returns_zero
    sample_final 0 sample_final_reachable sample_final_exit)))).
Defined.

(** C4 does not hold as the specification has it: there is a failure
    path.  When the system refuses the second thread, the process is
    aborted with one thread constructed and none joined; it has not
    returned 0, and nothing moves any more. *)
Lemma driver_aborts_when_thread_is_refused :
  reachable refused_state /\
  s_aborted refused_state = true /\
  s_exit refused_state = None /\
  length (s_dlog refused_state) = 1%nat /\
  ~ exists s', step refused_state s'.
Proof.
  assert (reachable refused_state) as Hs
    by (apply sched_run_reachable; vm_compute; reflexivity).
  assert (s_aborted refused_state = true) as Hab by (vm_compute; reflexivity).
  split; [exact Hs|]. split; [exact Hab|].
  split; [vm_compute; reflexivity|]. split; [vm_compute; reflexivity|].
  intros [s' Hstep]. exact (proj2 (aborted_stuck _ Hs Hab) s' Hstep).
Qed.

(** C7: [main] does not return before the three tasks have completed and
    written their summary lines: a thread that has been joined has run to
    its end and its summary line is on the stream, and when [main] has
    returned all three have been joined. *)
Theorem join_before_exit (s : sys) :
  reachable s ->
  (forall t, In (DevJoin t) (s_dlog s) ->
     exists th n,
       s_threads s !! t = Some th /\ t_code th = Ret tt /\
       t_arg th = Z.of_nat t + 1 /\
       last (lines (written_by t s)) =
         Some (summary_line (Z.of_nat t + 1) n)) /\
  (forall code, s_exit s = Some code ->
     (exists before,
        s_dlog s =
          before ++ [DevJoin 0; DevJoin 1; DevJoin 2; DevReturn code]) /\
     Forall (fun th => t_code th = Ret tt) (s_threads s) /\
     exists n1 n2 n3,
       last (lines (written_by 0 s)) = Some (summary_line 1 n1) /\
       last (lines (written_by 1 s)) = Some (summary_line 2 n2) /\
       last (lines (written_by 2 s)) = Some (summary_line 3 n3)).
Proof.
  intros Hs. pose proof (invariant_reachable s Hs) as Hinv.
  assert (forall t, In (DevJoin t) (s_dlog s) ->
     exists th n,
       s_threads s !! t = Some th /\ t_code th = Ret tt /\
       t_arg th = Z.of_nat t + 1 /\
       last (lines (written_by t s)) =
         Some (summary_line (Z.of_nat t + 1) n)) as Hjoined.
  { intros t Ht. destruct (inv_joined s Hinv t Ht) as (th & Hth & Hcode).
    destruct (completed_reachable s Hs t th Hth Hcode)
      as (_ & Harg & _ & st & en & Hlog).
    exists th, (elapsed_ms st en). repeat split; try assumption.
    rewrite (written_by_reachable s Hs t th Hth), Hlog.
    rewrite lines_spec_worker_trace. apply last_spec_worker_lines. }
  split; [exact Hjoined|].
  intros code Hexit.
  destruct (final_state s Hs code Hexit) as (-> & Hd & th1 & th2 & th3 &
    Hths & (_ & _ & C1 & _) & (_ & _ & C2 & _) & (_ & _ & C3 & _)).
  split; [|split].
  - exists [DevSpawn 0 worker 1; DevSpawn 1 worker 2; DevSpawn 2 worker 3].
    now rewrite Hd.
  - rewrite Hths. repeat constructor; assumption.
  - rewrite Hd in Hjoined.
    destruct (Hjoined 0%nat) as (_ & n1 & _ & _ & _ & L1); [simpl; auto|].
    destruct (Hjoined 1%nat) as (_ & n2 & _ & _ & _ & L2); [simpl; auto 6|].
    destruct (Hjoined 2%nat) as (_ & n3 & _ & _ & _ & L3); [simpl; auto 7|].
    now exists n1, n2, n3.
Qed.

Lemma join_before_exit_witness :
  Forall (fun th => t_code th = Ret tt) (s_threads sample_final) /\
  exists n1 n2 n3,
    last (lines (written_by 0 sample_final)) = Some (summary_line 1 n1) /\
    last (lines (written_by 1 sample_final)) = Some (summary_line 2 n2) /\
    last (lines (written_by 2 sample_final)) = Some (summary_line 3 n3).
Proof.
  exact (proj2 (proj2 (join_before_exit sample_final sample_final_reachable)
                  0 sample_final_exit)).
Defined.




(** * Further properties of the program *)

Section MoreText.

Local Open Scope string_scope.

Lemma no_space_uint (d : Decimal.uint) :
  no_space (NilEmpty.string_of_uint d) = true.
Proof. induction d; simpl; auto. Qed.

Lemma no_space_show_int (n : Z) : no_space (show_int n) = true.
Proof.
  unfold show_int. destruct (Z.to_int n) as [d|d]; simpl;
    destruct d; simpl; auto using no_space_uint.
Qed.

(** Two texts that stop at their first space are cut at the same place. *)
Lemma cut_at_space (a a' r r' : string) :
  no_space a = true -> no_space a' = true ->
  a ++ String " " r = a' ++ String " " r' -> a = a' /\ r = r'.
Proof.
  revert a'. induction a as [|c a IH]; intros [|c' a'] Ha Ha' H; simpl in *.
  - injection H as ->. auto.
  - injection H as <- _. now rewrite Ascii.eqb_refl in Ha'.
  - injection H as -> _. now rewrite Ascii.eqb_refl in Ha.
  - injection H as -> H.
    apply andb_prop in Ha as [_ Ha]. apply andb_prop in Ha' as [_ Ha'].
    destruct (IH a' Ha Ha' H) as [-> ->]. auto.
Qed.

Lemma show_int_inj (n n' : Z) : show_int n = show_int n' -> n = n'.
Proof.
  intros H. apply DecimalZ.to_int_inj.
  assert (forall z, NilZero.int_of_string (show_int z) = Some (Z.to_int z))
    as Hread.
  { intros z. unfold show_int. apply NilZero.isi.
    - destruct z as [|p|p]; simpl; try discriminate.
      intros [= Hp]. now apply (DecimalPos.Unsigned.to_uint_nonnil p).
    - destruct z as [|p|p]; simpl; try discriminate.
      intros [= Hp]. now apply (DecimalPos.Unsigned.to_uint_nonnil p). }
  pose proof (Hread n) as Hn. rewrite H, Hread in Hn. now injection Hn.
Qed.

Lemma show_int_not_notice_tail (n : Z) :
  show_int n <> " is yielding..." ++ LF.
Proof.
  intros H. pose proof (no_space_show_int n) as Hn. rewrite H in Hn.
  discriminate.
Qed.

End MoreText.

Section MoreRuns.

Lemma length_couts_spec_worker_trace (id starting ending : Z) :
  length (couts (spec_worker_trace id starting ending)) =
  if bool_decide (id = 1) then 35%nat else 5%nat.
Proof. by_id. Qed.

Lemma cout_of_cons (i j : nat) (str : string) (out : list (nat * string)) :
  cout_of i ((j, str) :: out) =
  if Nat.eqb j i then str :: cout_of i out else cout_of i out.
Proof. unfold cout_of. simpl. now destruct (Nat.eqb j i). Qed.

(** The chunks on the stream are those of its writers. *)
Lemma length_cout_three (out : list (nat * string)) :
  (forall i, (3 <= i)%nat -> cout_of i out = []) ->
  length out =
  (length (cout_of 0 out) + length (cout_of 1 out) + length (cout_of 2 out))%nat.
Proof.
  induction out as [|[j str] out IH]; intros Hw; [reflexivity|].
  assert (forall i, (3 <= i)%nat -> cout_of i out = []) as Hw'.
  { intros i Hi. specialize (Hw i Hi). rewrite cout_of_cons in Hw.
    destruct (Nat.eqb j i); [discriminate | exact Hw]. }
  specialize (IH Hw'). rewrite !cout_of_cons.
  destruct j as [|[|[|j]]]; simpl; try lia.
  specialize (Hw (S (S (S j))) ltac:(lia)).
  rewrite cout_of_cons, Nat.eqb_refl in Hw. discriminate.
Qed.

Lemma sample_midway_reachable : reachable sample_midway.
Proof. apply sched_run_reachable. vm_compute. reflexivity. Qed.

Lemma mixed_final_reachable : reachable mixed_final.
Proof. apply sched_run_reachable. vm_compute. reflexivity. Qed.

Lemma mixed_final_exit : s_exit mixed_final = Some 0.
Proof. vm_compute. reflexivity. Qed.

Lemma sample_final_nsteps : exists n, nsteps step n init sample_final.
Proof. apply rtc_nsteps_1, sample_final_reachable. Qed.

(** What a thread has done is a beginning of what the worker does. *)
Lemma thread_log_prefix (s : sys) (i : nat) (th : thread) :
  reachable s -> s_threads s !! i = Some th ->
  (i < 3)%nat /\
  exists starting ending,
    t_log th `prefix_of` spec_worker_trace (Z.of_nat i + 1) starting ending /\
    (t_code th = Ret tt <->
     t_log th = spec_worker_trace (Z.of_nat i + 1) starting ending).
Proof.
  intros Hs Hth. pose proof (invariant_reachable s Hs) as Hinv.
  pose proof (thread_origin_reachable s Hs i th Hth) as Horig.
  split.
  { pose proof (inv_dlog s Hinv) as Hd.
    apply (f_equal (fun l => length (omap spawn_of l))) in Hd.
    rewrite omap_app, <- (inv_spawned s Hinv), length_app, length_fmap,
      main_events in Hd. simpl in Hd.
    apply lookup_lt_Some in Hth. lia. }
  unfold thread_origin in Horig. injection Horig as Hentry Harg.
  destruct (has_trace_total (t_code th)) as (tr & [] & Htr).
  pose proof (inv_traces s Hinv i th Hth tr Htr) as Hfull.
  rewrite Hentry, Harg in Hfull.
  apply has_trace_worker in Hfull as (st & en & _ & Hlog).
  exists st, en. split; [exists tr; now rewrite Hlog|]. split.
  - intros Hcode. rewrite Hcode in Htr. inversion Htr; subst.
    + now rewrite app_nil_r in Hlog.
    + discriminate.
  - intros Hdone. rewrite Hdone in Hlog.
    assert (tr = []) as ->.
    { apply (f_equal length) in Hlog. rewrite length_app in Hlog.
      destruct tr; [reflexivity | simpl in Hlog; lia]. }
    inversion Htr; subst. reflexivity.
Qed.

Lemma elapsed_ms_opp (starting ending : Z) :
  Z.abs (ending - starting) < 2 ^ 63 ->
  elapsed_ms ending starting = - elapsed_ms starting ending.
Proof.
  intros H. rewrite !elapsed_ms_no_overflow by (unfold chrono.in_rep; lia).
  rewrite <- Z.quot_opp_l by lia. f_equal. lia.
Qed.

End MoreRuns.

(** X1: at every moment of every run, what a thread has done so far is a
    beginning of what [worker] does on its argument; the thread has
    nothing left to do exactly when it has done all of it. *)
Theorem thread_log_is_worker_prefix (s : sys) (i : nat) (th : thread) :
  reachable s -> s_threads s !! i = Some th ->
  (i < 3)%nat /\
  exists starting ending,
    t_log th `prefix_of` spec_worker_trace (Z.of_nat i + 1) starting ending /\
    (t_code th = Ret tt <->
     t_log th = spec_worker_trace (Z.of_nat i + 1) starting ending).
Proof. exact (thread_log_prefix s i th). Qed.

Lemma thread_log_is_worker_prefix_witness :
  exists th starting ending,
    s_threads sample_midway !! 0%nat = Some th /\
    length (t_log th) = 17%nat /\
    t_log th `prefix_of` spec_worker_trace 1 starting ending.
Proof.
  assert ((fun th => length (t_log th)) <$> s_threads sample_midway !! 0%nat =
          Some 17%nat) as Hlog by (vm_compute; reflexivity).
  assert (exists th, s_threads sample_midway !! 0%nat = Some th /\
                     length (t_log th) = 17%nat) as (th & Hth & Hlen).
  { destruct (s_threads sample_midway !! 0%nat) as [th|];
      [injection Hlog as Hlog; now exists th | discriminate Hlog]. }
  destruct (thread_log_is_worker_prefix sample_midway 0 th
              sample_midway_reachable Hth) as (_ & st & en & Hpre & _).
  exists th, st, en. auto.
Defined.

(** X2: a thread other than the first never yields and never writes a
    yield notice, at any moment of any run. *)
Theorem other_threads_never_yield (s : sys) (i : nat) (th : thread) :
  reachable s -> s_threads s !! i = Some th -> i <> 0%nat ->
  Forall (fun e => e <> EvYield /\ e <> EvCout (" is yielding..." ++ LF))
    (t_log th).
Proof.
  intros Hs Hth Hi.
  destruct (thread_log_prefix s i th Hs Hth)
    as (Hlt & st & en & [rest Hpre] & _).
  assert (Forall (fun e => e <> EvYield /\ e <> EvCout (" is yielding..." ++ LF))
            (spec_worker_trace (Z.of_nat i + 1) st en)) as Hall.
  { pose proof show_int_not_notice_tail as Hshow.
    destruct i as [|[|[|i]]]; [congruence| | |lia];
      unfold spec_worker_trace, spec_iteration;
      generalize (elapsed_ms st en); intros n; simpl;
      repeat constructor; try discriminate; intros [= H]; eapply Hshow, H. }
  rewrite Hpre in Hall. now apply Forall_app in Hall as [Hall _].
Qed.

Lemma other_threads_never_yield_witness :
  exists th,
    s_threads sample_final !! 2%nat = Some th /\
    Forall (fun e => e <> EvYield /\ e <> EvCout (" is yielding..." ++ LF))
      (t_log th).
Proof.
  assert (length (s_threads sample_final) = 3%nat) as Hlen
    by (vm_compute; reflexivity).
  assert (exists th, s_threads sample_final !! 2%nat = Some th) as [th Hth].
  { destruct (s_threads sample_final !! 2%nat) as [th|] eqn:Hth;
      [now exists th | apply lookup_ge_None in Hth; lia]. }
  exists th. split; [exact Hth|].
  apply (other_threads_never_yield sample_final 2 th sample_final_reachable Hth).
  discriminate.
Defined.

(** X3: the driver's events are, at every moment, a beginning of one fixed
    sequence: three constructions, three joins, the return.  So no join
    happens before all three threads exist, and a thread is joined only
    after the threads before it. *)
Theorem driver_log_is_prefix (s : sys) :
  reachable s ->
  s_dlog s `prefix_of`
    [DevSpawn 0 worker 1; DevSpawn 1 worker 2; DevSpawn 2 worker 3;
     DevJoin 0; DevJoin 1; DevJoin 2; DevReturn 0] /\
  (forall t, In (DevJoin t) (s_dlog s) ->
     length (s_threads s) = 3%nat /\
     forall t', (t' < t)%nat -> In (DevJoin t') (s_dlog s)).
Proof.
  intros Hs. pose proof (invariant_reachable s Hs) as Hinv.
  pose proof (inv_dlog s Hinv) as Hd. rewrite main_events in Hd.
  pose proof (inv_spawned s Hinv) as Hsp.
  split; [eexists; symmetry; exact Hd|].
  intros t Ht.
  assert (length (s_threads s) = length (omap spawn_of (s_dlog s))) as Hlen
    by now rewrite <- Hsp, length_fmap.
  rewrite Hlen. clear Hsp Hlen Hinv Hs.
  assert (s_dlog s =
          take (length (s_dlog s))
            [DevSpawn 0 worker 1; DevSpawn 1 worker 2; DevSpawn 2 worker 3;
             DevJoin 0; DevJoin 1; DevJoin 2; DevReturn 0]) as Htake
    by (rewrite <- Hd; now rewrite take_app_length).
  destruct (length (s_dlog s)) as [|[|[|[|[|[|[|k]]]]]]];
    simpl in Htake; rewrite ?take_nil in Htake;
    rewrite Htake in Ht |- *; clear Htake Hd;
    simpl in Ht;
    repeat (destruct Ht as [Ht|Ht];
            [first
               [discriminate Ht
               |injection Ht as <-; split; [reflexivity|];
                intros t' Ht'; simpl;
                destruct t' as [|[|[|t']]]; try lia; auto 10]
            |]);
    contradiction.
Qed.

Lemma driver_log_is_prefix_witness :
  s_dlog sample_midway `prefix_of`
    [DevSpawn 0 worker 1; DevSpawn 1 worker 2; DevSpawn 2 worker 3;
     DevJoin 0; DevJoin 1; DevJoin 2; DevReturn 0].
Proof.
  exact (proj1 (driver_log_is_prefix sample_midway sample_midway_reachable)).
Defined.

(** X4: however the threads are scheduled, a run that returns from [main]
    has made exactly 98 moves and has put exactly 45 chunks on the shared
    stream: 35 by the first thread and 5 by each of the others. *)
Theorem complete_run_has_98_moves (n : nat) (s : sys) (code : Z) :
  nsteps step n init s -> s_exit s = Some code ->
  n = 98%nat /\
  length (s_cout s) = 45%nat /\
  length (cout_of 0 (s_cout s)) = 35%nat /\
  length (cout_of 1 (s_cout s)) = 5%nat /\
  length (cout_of 2 (s_cout s)) = 5%nat.
Proof.
  intros Hn Hexit.
  assert (reachable s) as Hs by now apply (rtc_nsteps_2 n).
  pose proof (invariant_reachable s Hs) as Hinv.
  destruct (final_state s Hs code Hexit) as (_ & Hd & th1 & th2 & th3 & Hths &
    (_ & _ & _ & s1 & e1 & L1) & (_ & _ & _ & s2 & e2 & L2) &
    (_ & _ & _ & s3 & e3 & L3)).
  assert (length (cout_of 0 (s_cout s)) = 35%nat) as C1.
  { rewrite (inv_cout s Hinv 0 th1) by now rewrite Hths.
    now rewrite L1, length_couts_spec_worker_trace. }
  assert (length (cout_of 1 (s_cout s)) = 5%nat) as C2.
  { rewrite (inv_cout s Hinv 1 th2) by now rewrite Hths.
    now rewrite L2, length_couts_spec_worker_trace. }
  assert (length (cout_of 2 (s_cout s)) = 5%nat) as C3.
  { rewrite (inv_cout s Hinv 2 th3) by now rewrite Hths.
    now rewrite L3, length_couts_spec_worker_trace. }
  split; [|split; [|auto]].
  - assert (s_aborted s = false) as Hab.
    { pose proof (inv_aborted s Hinv) as Hab.
      destruct (s_aborted s); [|reflexivity].
      rewrite Hab in Hexit by reflexivity. discriminate. }
    rewrite <- (steps_taken_nsteps n s Hn). unfold steps_taken.
    rewrite Hd, Hths, Hab, main_events. simpl.
    now rewrite L1, L2, L3, !length_spec_worker_trace.
  - rewrite length_cout_three; [lia|].
    intros i Hi. apply (inv_writers s Hinv). rewrite Hths. simpl. lia.
Qed.

Lemma complete_run_has_98_moves_witness :
  exists n, nsteps step n init sample_final /\ n = 98%nat /\
            length (s_cout sample_final) = 45%nat.
Proof.
  destruct sample_final_nsteps as [n Hn].
  destruct (complete_run_has_98_moves n sample_final 0 Hn sample_final_exit)
    as (H1 & H2 & _).
  exists n. auto.
Defined.

(** X5: from every state a run can be in where no construction of a
    thread has failed, the run can be carried on to the return from
    [main], and the exit code is then 0: no schedule of the threads leads
    to a state from which the program cannot finish.  (After a failed
    construction the process is aborted and nothing moves.) *)
Theorem every_run_can_finish (s : sys) :
  reachable s -> s_aborted s = false ->
  exists s', rtc step s s' /\ s_exit s' = Some 0 /\ s_aborted s' = false.
Proof.
  intros Hs.
  remember (98 - steps_taken s)%nat as fuel eqn:Hfuel.
  revert s Hs Hfuel.
  induction fuel as [fuel IH] using lt_wf_ind. intros s Hs Hfuel Hab.
  destruct (s_exit s) as [code|] eqn:Hexit.
  - destruct (final_state s Hs code Hexit) as (-> & _).
    exists s. split; [constructor | split; [exact Hexit | exact Hab]].
  - destruct (progress s Hs Hexit Hab) as (s1 & Hstep & Hab1).
    assert (reachable s1) as Hs1 by (eapply rtc_r; eassumption).
    pose proof (steps_taken_step s s1 Hstep) as Hcount.
    pose proof (steps_bound s1 Hs1) as Hbound.
    destruct (IH (98 - steps_taken s1)%nat ltac:(lia) s1 Hs1 eq_refl Hab1)
      as (s' & Hrun & Hdone).
    exists s'. split; [eapply rtc_l; eassumption | exact Hdone].
Qed.

Lemma every_run_can_finish_witness :
  s_aborted sample_midway = false /\
  exists s', rtc step sample_midway s' /\ s_exit s' = Some 0.
Proof.
  assert (s_aborted sample_midway = false) as Hab by (vm_compute; reflexivity).
  split; [exact Hab|].
  destruct (every_run_can_finish sample_midway sample_midway_reachable Hab)
    as (s' & Hrun & Hexit & _).
  exists s'. split; assumption.
Defined.

(** A run in which a construction has failed cannot finish. *)
Example refused_run_cannot_finish :
  reachable refused_state /\
  forall s', rtc step refused_state s' -> s_exit s' = None.
Proof.
  assert (reachable refused_state) as Hs
    by (apply sched_run_reachable; vm_compute; reflexivity).
  assert (s_aborted refused_state = true) as Hab by (vm_compute; reflexivity).
  split; [exact Hs|]. intros s' Hrun.
  destruct (aborted_stuck _ Hs Hab) as [Hexit Hstuck].
  apply rtc_inv in Hrun as [<-|(s1 & Hstep & _)]; [exact Hexit|].
  destruct (Hstuck s1 Hstep).
Qed.

(** X6: for readings whose differences fit the 64-bit count, the
    reported count does not decrease when the end reading grows and does
    not increase when the start reading grows; exchanging the two readings
    changes its sign only, so a negative duration is cut toward zero as
    well. *)
Theorem elapsed_ms_monotone (starting ending1 ending2 : Z) :
  Z.abs (ending1 - starting) < 2 ^ 63 ->
  Z.abs (ending2 - starting) < 2 ^ 63 ->
  ending1 <= ending2 ->
  elapsed_ms starting ending1 <= elapsed_ms starting ending2 /\
  elapsed_ms ending2 starting <= elapsed_ms ending1 starting /\
  elapsed_ms ending1 starting = - elapsed_ms starting ending1.
Proof.
  intros H1 H2 H.
  split; [|split; [|now apply elapsed_ms_opp]];
    rewrite !elapsed_ms_no_overflow by (unfold chrono.in_rep; lia);
    apply Z.quot_le_mono; lia.
Qed.

Lemma elapsed_ms_monotone_witness :
  elapsed_ms 5 1099900005 <= elapsed_ms 5 1100000005 /\
  elapsed_ms 1099900005 5 = - elapsed_ms 5 1099900005.
Proof.
  destruct (elapsed_ms_monotone 5 1099900005 1100000005
              ltac:(lia) ltac:(lia) ltac:(lia)) as (H1 & _ & H3).
  split; assumption.
Defined.

(** Without the condition the count is not monotone: one tick more on the
    end reading turns the largest count into the smallest. *)
Example elapsed_ms_wraps_around :
  elapsed_ms 0 (2 ^ 63 - 1) = 9223372036854 /\
  elapsed_ms 0 (2 ^ 63) = -9223372036854.
Proof. split; reflexivity. Qed.

(** X7: two readings less than one millisecond apart, in either order,
    are reported as 0. *)
Theorem elapsed_ms_below_one_millisecond (starting ending : Z) :
  Z.abs (ending - starting) < 1000000 -> elapsed_ms starting ending = 0.
Proof.
  intros H. rewrite elapsed_ms_no_overflow by (unfold chrono.in_rep; lia).
  destruct (Z.le_gt_cases 0 (ending - starting)) as [Hd|Hd].
  - apply Z.quot_small. lia.
  - replace (ending - starting) with (- (starting - ending)) by lia.
    rewrite Z.quot_opp_l by lia. rewrite Z.quot_small; lia.
Qed.

Lemma elapsed_ms_below_one_millisecond_witness :
  elapsed_ms 2000000 1000001 = 0.
Proof. apply elapsed_ms_below_one_millisecond. simpl. lia. Defined.

(** X8: for two readings that fit the clock's 64-bit count and are not
    before its epoch, neither the subtraction nor the conversion leaves
    the 64-bit range: the 64-bit subtraction gives the difference of the
    readings, and the count is below 2^63 / 10^6 in size. *)
Theorem elapsed_fits_representation (starting ending : Z) :
  chrono.in_rep starting -> chrono.in_rep ending ->
  0 <= starting -> 0 <= ending ->
  chrono.minus ending starting = ending - starting /\
  chrono.in_rep (ending - starting) /\
  chrono.in_rep (chrono.minus ending starting) /\
  chrono.in_rep (elapsed_ms starting ending) /\
  Z.abs (elapsed_ms starting ending) <= 9223372036854.
Proof.
  unfold chrono.in_rep. intros Hs He Hs0 He0.
  assert (- 2 ^ 63 <= ending - starting < 2 ^ 63) as Hd by lia.
  assert (Z.abs (elapsed_ms starting ending) <= 9223372036854) as Hn.
  { destruct (Z.le_gt_cases starting ending) as [Hle|Hgt].
    - destruct (elapsed_ms_bounds starting ending ltac:(lia)) as [_ Hb]. lia.
    - destruct (elapsed_ms_bounds ending starting ltac:(lia)) as [_ Hb].
      pose proof (elapsed_ms_opp starting ending ltac:(lia)) as Hopp. lia. }
  rewrite (minus_no_overflow starting ending Hd). lia.
Qed.

Lemma elapsed_fits_representation_witness :
  chrono.in_rep (elapsed_ms 5 (2 ^ 63 - 1)) /\
  chrono.minus (2 ^ 63 - 1) 5 = 2 ^ 63 - 1 - 5.
Proof.
  destruct (elapsed_fits_representation 5 (2 ^ 63 - 1)) as (Hm & _ & _ & Hn & _);
    try (unfold chrono.in_rep; lia).
  split; [exact Hn | exact Hm].
Defined.

(** X9: the summary line tells its thread and its count: two summary
    lines are equal only if both the id and the count are. *)
Theorem summary_line_identifies (id id' n n' : Z) :
  summary_line id n = summary_line id' n' -> id = id' /\ n = n'.
Proof.
  unfold summary_line. intros H. simpl in H.
  injection H as H.
  apply cut_at_space in H as [Hid H]; try apply no_space_show_int.
  injection H as H.
  apply cut_at_space in H as [Hn _]; try apply no_space_show_int.
  split; now apply show_int_inj.
Qed.

Lemma summary_line_identifies_witness :
  summary_line 2 1000 = "Thread 2 finished execution in 1000 milliseconds" /\
  (2 = 2 /\ 1000 = 1000).
Proof.
  split; [reflexivity|].
  exact (summary_line_identifies 2 2 1000 1000 eq_refl).
Defined.

(** X10: the order of the chunks on the shared stream is not determined.
    There are two complete runs in which every thread writes the same
    text, yet in one the stream holds the line of the second thread
    whole and in the other that line is broken up by the chunks of the
    third thread. *)
Theorem stream_order_is_not_determined :
  exists s1 s2,
    reachable s1 /\ reachable s2 /\
    s_exit s1 = Some 0 /\ s_exit s2 = Some 0 /\
    (forall i, written_by i s1 = written_by i s2) /\
    In "Thread 2 finished execution in 1000 milliseconds"
       (lines (stream_text s1)) /\
    ~ In "Thread 2 finished execution in 1000 milliseconds"
         (lines (stream_text s2)).
Proof.
  exists sample_final, mixed_final.
  split; [exact sample_final_reachable|].
  split; [exact mixed_final_reachable|].
  split; [exact sample_final_exit|].
  split; [exact mixed_final_exit|].
  split; [|split].
  - intros i. destruct (le_lt_dec 3 i) as [Hi|Hi].
    + rewrite (written_by_nobody _ sample_final_reachable),
        (written_by_nobody _ mixed_final_reachable);
        [reflexivity | vm_compute; lia | vm_compute; lia].
    + destruct i as [|[|[|i]]]; [vm_compute; reflexivity ..|lia].
  - vm_compute. auto 20.
  - vm_compute. intuition discriminate.
Qed.
